(** * KPHP type inference core: interned keys and type-lattice nodes

    A shallow embedding of [compiler/inferring/key.cpp] and of the flag
    machinery of [compiler/inferring/type-data.h], together with the
    properties the specification states about them, and of the code
    generation pipe [compiler/pipes/code-gen.cpp].

    Layout: machine integers and outcomes; the [Key] interner; the [TypeData]
    node store with its flag setters; the lattice join on owned trees; the
    interleaving of interner calls; the code generation pipe; then the
    properties, module by module. *)

From Stdlib Require Import ZArith Lia Ascii DecimalString.
From stdpp Require Import gmap strings list sorting.

Open Scope Z_scope.

(** ** Machine integers

    [int] and [unsigned int] are 32 bits wide.  Values are kept in [Z] and
    every conversion is written out. *)

(** [(unsigned int) z]: reduction modulo 2^32. *)
Definition to_uint (z : Z) : Z := z mod 2 ^ 32.

(** Conversion of [z] to [int]: the representative in [-2^31, 2^31). *)
Definition to_int (z : Z) : Z := (z + 2 ^ 31) mod 2 ^ 32 - 2 ^ 31.

(** ** Outcomes

    [dl_assert] and [dl_unreachable] terminate the process ([Fatal]); reading
    through a null pointer is [Segfault]. *)
Inductive result (A : Type) : Type :=
  | Ok (a : A)
  | Fatal
  | Segfault.
Arguments Ok {A} a.
Arguments Fatal {A}.
Arguments Segfault {A}.

(** [dl_pstr("%d", z)]: the decimal rendering of an [int]. *)
Definition dl_pstr_d (z : Z) : string := NilEmpty.string_of_int (Z.to_int z).

(** [dl_pstr("%s", s.c_str())]: [c_str] yields a NUL-terminated buffer and
    [%s] prints it up to the first NUL character. *)
Fixpoint c_str (s : string) : string :=
  match s with
  | EmptyString => EmptyString
  | String c s' => if Ascii.eqb c Ascii.zero then EmptyString else String c (c_str s')
  end.

(** Whether a string holds a NUL character. *)
Fixpoint has_nul (s : string) : bool :=
  match s with
  | EmptyString => false
  | String c s' => Ascii.eqb c Ascii.zero || has_nul s'
  end.

(** ** key.cpp *)
Module Key.

(** [class Key]: one [int id]. *)
Record t : Type := Build { id : Z }.

#[export] Instance t_eq_dec : EqDecision t.
Proof. solve_decision. Defined.

(** [Key::Key()]: the uninitialized key. *)
Definition default : t := Build (-1).

(** [Key::any_key]. *)
Definition any_key : t := Build 0.

(** Modelled from the spec: the id classes tested by [is_int_key],
    [is_string_key] and [is_any_key] (key.h is absent): "0 = the wildcard
    any-index key; odd ids = integer indices; even ids >= 2 = string
    indices". *)
Definition is_int_key (k : t) : bool := Z.odd (id k).
Definition is_string_key (k : t) : bool := Z.even (id k) && (2 <=? id k).
Definition is_any_key (k : t) : bool := id k =? 0.

(** The static tables of key.cpp.

    Modelled from the spec: [TSHashTable<T>] (compiler/threading/hash-table.h
    is absent) is a cache whose [at(h)] returns the one node of hash [h]; a
    node's [data] is null until a creator stores into it.  A finite map from
    hashes to the stored data, [None] standing for the null [data]. *)
Record tables : Type := Tables {
  int_keys_ht : gmap Z t;
  string_keys_ht : gmap Z t;
  string_key_names_ht : gmap Z string;
  n_string_keys_ht : Z
}.

(** The tables at program start. *)
Definition init : tables := Tables ∅ ∅ ∅ 0.

Section Interner.

(** [hash_ll] (its definition is absent): the hash of a string. *)
Variable hash_ll : string → Z.

(** The part of [Key::string_key] that runs under the node's lock:
    [__sync_fetch_and_add], the new key, the [dl_assert] on the name node and
    the store of the name. *)
Definition string_key_create (key : string) (st : tables) : result (t * tables) :=
  let old_n := n_string_keys_ht st in
  let k := Build (to_int (old_n * 2 + 2)) in
  match string_key_names_ht st !! id k with
  | Some _ => Fatal
  | None =>
      Ok (k, Tables (int_keys_ht st)
                    (<[hash_ll key := k]> (string_keys_ht st))
                    (<[id k := key]> (string_key_names_ht st))
                    (to_int (old_n + 1)))
  end.

(** [Key::string_key]. *)
Definition string_key (key : string) (st : tables) : result (t * tables) :=
  match string_keys_ht st !! hash_ll key with
  | Some k => Ok (k, st)
  | None => string_key_create key st
  end.

(** The locked part of [Key::int_key]. *)
Definition int_key_create (key : Z) (st : tables) : t * tables :=
  let k := Build (to_int (to_uint (to_uint key * 2 + 1))) in
  (k, Tables (<[to_uint key := k]> (int_keys_ht st))
             (string_keys_ht st) (string_key_names_ht st) (n_string_keys_ht st)).

(** [Key::int_key]. *)
Definition int_key (key : Z) (st : tables) : t * tables :=
  match int_keys_ht st !! to_uint key with
  | Some k => (k, st)
  | None => int_key_create key st
  end.

(** [Key::to_string]. *)
Definition to_string (k : t) (st : tables) : result string :=
  if is_int_key k then Ok (dl_pstr_d (Z.quot (to_int (id k - 1)) 2))
  else if is_string_key k then
    match string_key_names_ht st !! id k with
    | Some name => Ok (c_str name)
    | None => Segfault
    end
  else if is_any_key k then Ok "Any"%string
  else Fatal.

(** A request to the interner, and a run of requests in program order. *)
Inductive request : Type :=
  | IntKey (i : Z)
  | StringKey (s : string).

Definition serve (r : request) (st : tables) : result (t * tables) :=
  match r with
  | IntKey i => Ok (int_key i st)
  | StringKey s => string_key s st
  end.

Fixpoint run (rs : list request) (st : tables) : result (list t * tables) :=
  match rs with
  | [] => Ok ([], st)
  | r :: rs' =>
      match serve r st with
      | Ok (k, st') =>
          match run rs' st' with
          | Ok (ks, st'') => Ok (k :: ks, st'')
          | Fatal => Fatal
          | Segfault => Segfault
          end
      | Fatal => Fatal
      | Segfault => Segfault
      end
  end.

(** The largest counter value whose id [n * 2 + 2] still fits an [int]. *)
Definition max_string_keys : Z := 2 ^ 30 - 1.

(** The invariant of the tables. *)
Record wf (st : tables) : Prop := Wf {
  wf_counter : 0 ≤ n_string_keys_ht st ≤ max_string_keys;
  wf_int_keys : ∀ h k, int_keys_ht st !! h = Some k →
    0 ≤ h < 2 ^ 32 ∧ id k = to_int (h * 2 + 1);
  wf_string_keys : ∀ h k, string_keys_ht st !! h = Some k →
    ∃ j name, 0 ≤ j < n_string_keys_ht st ∧ id k = j * 2 + 2 ∧
              string_key_names_ht st !! id k = Some name ∧ hash_ll name = h;
  wf_names : ∀ i name, string_key_names_ht st !! i = Some name →
    ∃ j, 0 ≤ j < n_string_keys_ht st ∧ i = j * 2 + 2
}.

End Interner.

(** The tables only grow: cached string keys stay cached. *)
Definition grows (st st' : tables) : Prop :=
  string_keys_ht st ⊆ string_keys_ht st' ∧
  n_string_keys_ht st ≤ n_string_keys_ht st'.

(** A string of [n] letters: infinitely many different strings. *)
Fixpoint pad (n : nat) : string :=
  match n with
  | O => EmptyString
  | S n' => String "a"%char (pad n')
  end.

(** A concrete 64-bit hash (a polynomial in the character codes), used to run
    the interner on examples; [hash_ll] itself may be any function. *)
Fixpoint sample_hash_from (h : Z) (s : string) : Z :=
  match s with
  | EmptyString => h
  | String c s' =>
      sample_hash_from ((h * 31 + Z.of_N (Ascii.N_of_ascii c)) mod 2 ^ 64) s'
  end.

Definition sample_hash : string → Z := sample_hash_from 7.

(** The first testable property as the specification words it, from the empty
    tables: two requests return equal keys exactly for equal strings. *)
Definition keys_equal_iff_strings_equal (hash_ll : string → Z) : Prop :=
  ∀ s1 s2 k1 st1 k2 st2,
    string_key hash_ll s1 init = Ok (k1, st1) →
    string_key hash_ll s2 st1 = Ok (k2, st2) →
    (k1 = k2 ↔ s1 = s2).

(** The counter counts the cached strings and the stored names. *)
Definition counted (st : tables) : Prop :=
  n_string_keys_ht st = Z.of_nat (size (string_keys_ht st)) ∧
  n_string_keys_ht st = Z.of_nat (size (string_key_names_ht st)).

(** The hashes of the strings a run of requests asks for. *)
Definition requested_hashes (hash_ll : string → Z) (rs : list request) : list Z :=
  omap (λ r, match r with
             | StringKey s => Some (hash_ll s)
             | IntKey _ => None
             end) rs.

End Key.

(** ** type-data.h: nodes in a store *)
Module TypeData.

(** [enum flag_id_t] and the bit each flag occupies in [flags_]. *)
Inductive flag_id_t : Type :=
  | write_flag_e
  | read_flag_e
  | or_false_flag_e
  | error_flag_e.

#[export] Instance flag_id_t_eq_dec : EqDecision flag_id_t.
Proof. solve_decision. Defined.

Definition flag_value (F : flag_id_t) : Z :=
  match F with
  | write_flag_e => 1
  | read_flag_e => 2
  | or_false_flag_e => 4
  | error_flag_e => 8
  end.

(** A [TypeData *] is an address in the node store. *)
Abbreviation ptr := nat (only parsing).

Section Nodes.

(** [PrimitiveType] and [ClassPtr] are declared in headers that are absent. *)
Context {PrimitiveType ClassPtr : Type}.

(** The data members of [class TypeData]. *)
Record t : Type := Node {
  ptype_ : PrimitiveType;
  class_type_ : ClassPtr;
  flags_ : Z;
  generation_ : Z;
  parent_ : option ptr;
  anykey_value : option ptr;
  subkeys_values : list (Key.t * ptr)
}.

(** The nodes alive in the process and [current_generation_], a [TLS] static:
    the value the running thread sees. *)
Record store : Type := Store {
  nodes : gmap nat t;
  current_generation_ : Z
}.

Definition with_flags (x : t) (fl : Z) : t :=
  Node (ptype_ x) (class_type_ x) fl (generation_ x)
       (parent_ x) (anykey_value x) (subkeys_values x).

Definition with_generation (x : t) (g : Z) : t :=
  Node (ptype_ x) (class_type_ x) (flags_ x) g
       (parent_ x) (anykey_value x) (subkeys_values x).

Definition write_node (a : ptr) (x : t) (σ : store) : store :=
  Store (<[a := x]> (nodes σ)) (current_generation_ σ).

(** [get_flag<FLAG>]: [flags_ & FLAG] converted to [bool]. *)
Definition get_flag (F : flag_id_t) (x : t) : bool :=
  negb (Z.land (flags_ x) (flag_value F) =? 0).

(** [flags_ |= FLAG]. *)
Definition or_flag (F : flag_id_t) (x : t) : t :=
  with_flags x (Z.lor (flags_ x) (flag_value F)).

(** What an observer reads of the node at [a]: its flags, its stamp. *)
Definition flags_of (σ : store) (a : ptr) : option Z := flags_ <$> nodes σ !! a.
Definition stamp_of (σ : store) (a : ptr) : option Z :=
  generation_ <$> nodes σ !! a.

(** Modelled from the spec: [on_changed] (type-data.cpp is absent) "advances
    the node's generation stamp to the current global generation value". *)
Definition on_changed (a : ptr) (σ : store) : store :=
  Store (alter (λ x, with_generation x (current_generation_ σ)) a (nodes σ))
        (current_generation_ σ).

(** Modelled from the spec: [inc_generation] (type-data.cpp is absent) advances
    the "global monotonic counter". *)
Definition inc_generation (σ : store) : store :=
  Store (nodes σ) (current_generation_ σ + 1).

(** [should_proxy_error_flag_to_parent] is a const member whose body is
    absent: a predicate of the store and the node it is called on. *)
Variable should_proxy_error_flag_to_parent : store → ptr → bool.

(** The primary template [set_flag<FLAG>], called on the node at [a]. *)
Definition set_flag_primary (F : flag_id_t) (f : bool) (a : ptr) (σ : store)
  : result store :=
  match nodes σ !! a with
  | None => Segfault
  | Some x =>
      if get_flag F x then (if f then Ok σ else Fatal)
      else if f then
        Ok (on_changed a (write_node a (or_flag F x) σ))
      else Ok σ
  end.

(** The specialization [set_flag<error_flag_e>].  The call on [parent_] is a
    recursive call; [fuel] bounds the depth of the recursion and [None] is
    the answer of a run that exhausts it. *)
Fixpoint set_flag_error (fuel : nat) (f : bool) (a : ptr) (σ : store)
  : option (result store) :=
  match fuel with
  | O => None
  | S fuel' =>
      if f then
        match nodes σ !! a with
        | None => Some Segfault
        | Some x =>
            if negb (get_flag error_flag_e x) then
              let σ1 := write_node a (or_flag error_flag_e x) σ in
              match parent_ x with
              | Some p =>
                  if should_proxy_error_flag_to_parent σ1 a
                  then set_flag_error fuel' true p σ1
                  else Some (Ok σ1)
              | None => Some (Ok σ1)
              end
            else Some (Ok σ)
        end
      else Some (Ok σ)
  end.

(** [set_flag<FLAG>(f)] with the template resolved; the error flag gets one
    unit of fuel per node of the store and one more. *)
Definition set_flag (F : flag_id_t) (f : bool) (a : ptr) (σ : store)
  : option (result store) :=
  match F with
  | error_flag_e => set_flag_error (S (size (nodes σ))) f a σ
  | _ => Some (set_flag_primary F f a σ)
  end.

(** The public setters forward to the template (their bodies are in the
    absent type-data.cpp). *)
Definition set_write_flag := set_flag write_flag_e.
Definition set_read_flag := set_flag read_flag_e.
Definition set_or_false_flag := set_flag or_false_flag_e.
Definition set_error_flag := set_flag error_flag_e.

(** The mutating operations whose code is present, and runs of them. *)
Inductive op : Type :=
  | SetFlag (F : flag_id_t) (f : bool) (a : ptr)
  | IncGeneration.

Definition exec (o : op) (σ : store) : option (result store) :=
  match o with
  | SetFlag F f a => set_flag F f a σ
  | IncGeneration => Some (Ok (inc_generation σ))
  end.

Fixpoint exec_all (os : list op) (σ : store) : option (result store) :=
  match os with
  | [] => Some (Ok σ)
  | o :: os' =>
      match exec o σ with
      | Some (Ok σ') => exec_all os' σ'
      | r => r
      end
  end.

(** Every stamp is at most the current generation. *)
Definition stamps_bounded (σ : store) : Prop :=
  ∀ a x, nodes σ !! a = Some x → generation_ x ≤ current_generation_ σ.

(** Every [parent_] pointer of the store points to a node of the store. *)
Definition parents_alive (σ : store) : Prop :=
  ∀ a x p, nodes σ !! a = Some x → parent_ x = Some p → is_Some (nodes σ !! p).

(** What a finished call did to each node: nothing, or it set an error bit
    that was unset. *)
Definition raised_error (σ σ' : store) : Prop :=
  current_generation_ σ' = current_generation_ σ ∧
  ∀ b, nodes σ' !! b = nodes σ !! b ∨
       ∃ y, nodes σ !! b = Some y ∧ get_flag error_flag_e y = false ∧
            nodes σ' !! b = Some (or_flag error_flag_e y).

(** The nodes whose error flag is unset; each recursive call removes one. *)
Definition error_unset (σ : store) : gmap nat t :=
  filter (λ kv, get_flag error_flag_e kv.2 = false) (nodes σ).

(** Every node of [σ] is a node of [σ'] with at least the same flags. *)
Definition flags_kept (σ σ' : store) : Prop :=
  ∀ a x, nodes σ !! a = Some x →
    ∃ x', nodes σ' !! a = Some x' ∧ ∀ G, get_flag G x = true → get_flag G x' = true.

(** The clock did not go back, and no stamp did. *)
Definition stamps_kept (σ σ' : store) : Prop :=
  current_generation_ σ ≤ current_generation_ σ' ∧
  ∀ a x, nodes σ !! a = Some x →
    ∃ x', nodes σ' !! a = Some x' ∧ generation_ x ≤ generation_ x'.

(** Error flags are closed upward: the parent of a flagged node is flagged. *)
Definition upward_closed (σ : store) : Prop :=
  ∀ a x p y, nodes σ !! a = Some x → get_flag error_flag_e x = true →
    parent_ x = Some p → nodes σ !! p = Some y →
    get_flag error_flag_e y = true.

(** [b] is [a] or lies on the chain of parents above [a]. *)
Inductive ancestor (σ : store) : ptr → ptr → Prop :=
  | ancestor_refl a : ancestor σ a a
  | ancestor_step a x p b :
      nodes σ !! a = Some x → parent_ x = Some p → ancestor σ p b →
      ancestor σ a b.

(** What [set_flag<FLAG>(true)] of the primary template does to a node:
    nothing if the flag is set, else the bit and the stamp. *)
Definition raise (F : flag_id_t) (cur : Z) (x : t) : t :=
  if get_flag F x then x else with_generation (or_flag F x) cur.

(** The node at [b] obeys the closure of error flags. *)
Definition closed_at (σ : store) (b : ptr) : Prop :=
  ∀ x p y, nodes σ !! b = Some x → get_flag error_flag_e x = true →
    parent_ x = Some p → nodes σ !! p = Some y →
    get_flag error_flag_e y = true.

End Nodes.

Arguments t : clear implicits.
Arguments store : clear implicits.

(** Stores to run the setters on. *)

(** A predicate that always proxies, and one that never does. *)
Definition always (σ : TypeData.store unit unit) (a : nat) : bool := true.
Definition never (σ : TypeData.store unit unit) (a : nat) : bool := false.

Definition leaf (fl g : Z) (parent : option nat) : TypeData.t unit unit :=
  Node tt tt fl g parent None [].

(** A parent at address 0 and its child at address 1, without flags, stamped
    0, while the current generation is 1. *)
Definition family : TypeData.store unit unit :=
  Store (<[0%nat := Node tt tt 0 0 None (Some 1%nat) []]>
           (<[1%nat := leaf 0 0 (Some 0%nat)]> ∅)) 1.

(** A single node with its write flag set. *)
Definition written : TypeData.store unit unit :=
  Store (<[0%nat := leaf 1 0 None]> ∅) 1.

Definition written_ops : list op :=
  [SetFlag read_flag_e true 0; IncGeneration; SetFlag error_flag_e true 0;
   SetFlag write_flag_e true 0; SetFlag error_flag_e false 0].

Definition written_after : TypeData.store unit unit :=
  Store (<[0%nat := leaf 11 1 None]> ∅) 2.

End TypeData.

(** ** The lattice join on owned trees

    A node together with everything it owns is a finite tree: the any-index
    child and the keyed children are owned, the parent is a back-reference
    and no part of the value. *)
Module Lattice.

Section Join.

Context {PrimitiveType ClassPtr : Type}.
Context `{!EqDecision PrimitiveType, !EqDecision ClassPtr}.

(** The value of a node: tag, class association, flags, stamp, any-index
    child, key-ordered children. *)
#[warnings="-register-all"]
Inductive t : Type :=
  | Node (ptype : PrimitiveType) (class_type : ClassPtr) (flags : Z)
         (generation : Z) (anykey_value : option t)
         (subkeys_values : list (Key.t * t)).

Definition ptype (x : t) : PrimitiveType := let 'Node p _ _ _ _ _ := x in p.
Definition class_type (x : t) : ClassPtr := let 'Node _ c _ _ _ _ := x in c.
Definition flags (x : t) : Z := let 'Node _ _ f _ _ _ := x in f.
Definition generation (x : t) : Z := let 'Node _ _ _ g _ _ := x in g.
Definition anykey_value (x : t) : option t := let 'Node _ _ _ _ a _ := x in a.
Definition subkeys_values (x : t) : list (Key.t * t) :=
  let 'Node _ _ _ _ _ l := x in l.

(** The join of two tags and the common ancestor of two class references:
    "the exact table is a parameter the implementer supplies". *)
Variable type_lca : PrimitiveType → PrimitiveType → PrimitiveType.
Variable class_lca : ClassPtr → ClassPtr → ClassPtr.

(** Modelled from the spec: [clone] (type-data.cpp is absent) is a "deep copy
    of owned children"; on values it returns its argument. *)
Definition clone (x : t) : t := x.

(** Modelled from the spec: the flags of a join are the "bitwise OR; the
    or_false flag participates in the merge only when save_or_false is
    true". *)
Definition join_flags (save_or_false : bool) (l r : Z) : Z :=
  Z.lor l (if save_or_false then r
           else Z.ldiff r (TypeData.flag_value TypeData.or_false_flag_e)).

(** Modelled from the spec: the keyed children are a "key-ordered
    collection"; [operator<] on keys (key.h is absent) compares the ids. *)
Definition key_lt (a b : Key.t) : Prop := Key.id a < Key.id b.
Definition key_ordered (l : list (Key.t * t)) : Prop :=
  StronglySorted key_lt l.*1.

(** Modelled from the spec: the keyed children of a join.  "Every explicit
    key present in either side is joined pointwise; a key present only in rhs
    is cloned into self"; the collection stays ordered by key id.  The
    boolean tells whether the left collection changed. *)
Definition join_subkeys (join : t → t → t * bool)
  : list (Key.t * t) → list (Key.t * t) → list (Key.t * t) * bool :=
  fix go (la : list (Key.t * t)) : list (Key.t * t) → list (Key.t * t) * bool :=
    match la with
    | [] => λ lb, (prod_map id clone <$> lb, negb (bool_decide (lb = [])))
    | (ka, va) :: la' =>
        fix go_r (lb : list (Key.t * t)) : list (Key.t * t) * bool :=
          match lb with
          | [] => (la, false)
          | (kb, vb) :: lb' =>
              match Key.id ka ?= Key.id kb with
              | Lt => let '(l, c) := go la' lb in ((ka, va) :: l, c)
              | Gt => let '(l, _) := go_r lb' in ((kb, clone vb) :: l, true)
              | Eq =>
                  let '(v, c1) := join va vb in
                  let '(l, c2) := go la' lb' in
                  ((ka, v) :: l, c1 || c2)
              end
          end
    end.

(** Modelled from the spec: [set_lca(rhs, save_or_false)] (type-data.cpp is
    absent).  The tag is "promoted to the lattice's join of the two tags",
    the class association is "replaced by the common ancestor class", the
    flags are OR-ed, "the any-index children of both sides are joined
    together" and the keyed children are joined key by key.  A join that
    changes the node runs the on-changed step, which sets the stamp to the
    current generation [cur].  The result is the new value of the left node
    and whether it changed. *)
Fixpoint set_lca (cur : Z) (save_or_false : bool) (lhs rhs : t) {struct lhs}
  : t * bool :=
  match lhs with
  | Node p c f g any subs =>
      let p' := type_lca p (ptype rhs) in
      let c' := class_lca c (class_type rhs) in
      let f' := join_flags save_or_false f (flags rhs) in
      let '(any', c_any) :=
        match any, anykey_value rhs with
        | Some l, Some r =>
            let '(l', ch) := set_lca cur save_or_false l r in (Some l', ch)
        | Some l, None => (Some l, false)
        | None, Some r => (Some (clone r), true)
        | None, None => (None, false)
        end in
      let '(subs', c_subs) :=
        join_subkeys (set_lca cur save_or_false) subs (subkeys_values rhs) in
      let changed :=
        negb (bool_decide (p' = p)) || negb (bool_decide (c' = c))
        || negb (f' =? f) || c_any || c_subs in
      (Node p' c' f' (if changed then cur else g) any' subs', changed)
  end.

(** The structure of a value: the value with every stamp erased. *)
Fixpoint structure (x : t) : t :=
  match x with
  | Node p c f _ any subs =>
      Node p c f 0 (structure <$> any) (prod_map id structure <$> subs)
  end.

End Join.

Arguments t : clear implicits.

(** Values to run the join on. *)

(** A small table of tags: equal tags join to themselves, different tags to
    the union tag. *)
Inductive sample_ptype : Type := tp_int | tp_string | tp_array | tp_mixed.

#[export] Instance sample_ptype_eq_dec : EqDecision sample_ptype.
Proof. solve_decision. Defined.

Definition sample_type_lca (p q : sample_ptype) : sample_ptype :=
  if decide (p = q) then p else tp_mixed.

(** Class references as optional class numbers; two different references
    have no common ancestor. *)
Definition sample_class_lca (c d : option nat) : option nat :=
  if decide (c = d) then c else None.

Definition int_leaf : t sample_ptype (option nat) :=
  Node tp_int None 0 0 None [].

Definition string_leaf : t sample_ptype (option nat) :=
  Node tp_string None 4 0 None [].

Definition array_a : t sample_ptype (option nat) :=
  Node tp_array None 1 0 (Some int_leaf)
       [(Key.Build 1, int_leaf); (Key.Build 4, string_leaf)].

Definition array_b : t sample_ptype (option nat) :=
  Node tp_array None 2 0 None
       [(Key.Build 2, string_leaf); (Key.Build 4, int_leaf)].

End Lattice.

(** ** Interner calls in flight

    [Key::string_key] and [Key::int_key] read the node's [data] before they
    take the node's lock and do not read it again once they hold it.  A call
    therefore has two atomic steps: the unlocked lookup, and the creation,
    which runs as one step because it holds the lock of the node. *)
Module Race.

Section Threads.

Variable hash_ll : string → Z.

(** Where a thread stands in its call. *)
Inductive thread : Type :=
  | Calling (r : Key.request)
  | Creating (r : Key.request)
  | Returned (k : Key.t)
  | Aborted.

(** One atomic step of a thread on the shared tables. *)
Definition step (th : thread) (st : Key.tables) : thread * Key.tables :=
  match th with
  | Calling (Key.StringKey s) =>
      match Key.string_keys_ht st !! hash_ll s with
      | Some k => (Returned k, st)
      | None => (Creating (Key.StringKey s), st)
      end
  | Calling (Key.IntKey i) =>
      match Key.int_keys_ht st !! to_uint i with
      | Some k => (Returned k, st)
      | None => (Creating (Key.IntKey i), st)
      end
  | Creating (Key.StringKey s) =>
      match Key.string_key_create hash_ll s st with
      | Ok (k, st') => (Returned k, st')
      | _ => (Aborted, st)
      end
  | Creating (Key.IntKey i) =>
      let '(k, st') := Key.int_key_create i st in (Returned k, st')
  | Returned k => (Returned k, st)
  | Aborted => (Aborted, st)
  end.

(** A schedule names, step by step, the thread that moves. *)
Fixpoint interleave (schedule : list nat) (ths : list thread) (st : Key.tables)
  : list thread * Key.tables :=
  match schedule with
  | [] => (ths, st)
  | i :: schedule' =>
      match ths !! i with
      | Some th =>
          let '(th', st') := step th st in
          interleave schedule' (<[i := th']> ths) st'
      | None => interleave schedule' ths st
      end
  end.

End Threads.

(** The key every cached or created entry for [i] holds. *)
Definition the_int_key (i : Z) : Key.t :=
  Key.Build (to_int (to_uint (to_uint i * 2 + 1))).

(** Threads that all ask for the integer [i]. *)
Definition asking_int (i : Z) (th : thread) : Prop :=
  th = Calling (Key.IntKey i) ∨ th = Creating (Key.IntKey i) ∨
  th = Returned (the_int_key i).



End Race.

(** ** code-gen.cpp *)
Module CodeGen.

(** [size_t] is 64 bits wide. *)
Definition to_size_t (z : Z) : Z := z mod 2 ^ 64.

(** [std::to_string(int)]: the decimal rendering. *)
Definition std_to_string (z : Z) : string := NilEmpty.string_of_int (Z.to_int z).

(** [std::replace(s.begin(), s.end(), old, new)]. *)
Fixpoint std_replace (old new : ascii) (s : string) : string :=
  match s with
  | EmptyString => EmptyString
  | String c s' =>
      String (if Ascii.eqb c old then new else c) (std_replace old new s')
  end.

(** Whether the character [c] occurs in [s]. *)
Fixpoint occurs (c : ascii) (s : string) : bool :=
  match s with
  | EmptyString => false
  | String d s' => Ascii.eqb d c || occurs c s'
  end.

(** *** The pass that collects forkable and waitable types *)
Module CollectForkableTypes.

Section Pass.

(** [VertexPtr] and [const TypeData *] are kept abstract. *)
Context {VertexPtr TypePtr : Type}.

(** What [on_enter_vertex] reads of an [op_func_call] vertex:
    [call->func_id->is_resumable] and [call->str_val]. *)
Record func_call : Type := FuncCall {
  func_id_is_resumable : bool;
  str_val : string
}.

(** [root.try_as<op_func_call>()], [tinf::get_type(root)] and
    [TypeData::const_read_at(const Key &)]: their bodies are absent. *)
Variable try_as_func_call : VertexPtr → option func_call.
Variable get_type : VertexPtr → TypePtr.
Variable const_read_at : TypePtr → Key.t → TypePtr.

(** The data members of the pass. *)
Record t : Type := Pass {
  waitable_types : list TypePtr;
  forkable_types : list TypePtr
}.

(** A pass as constructed: both vectors empty. *)
Definition empty : t := Pass [] [].

(** [waitable_types.push_back(x)] and [forkable_types.push_back(x)]. *)
Definition push_waitable (x : TypePtr) (p : t) : t :=
  Pass (waitable_types p ++ [x]) (forkable_types p).
Definition push_forkable (x : TypePtr) (p : t) : t :=
  Pass (waitable_types p) (forkable_types p ++ [x]).

(** [CollectForkableTypes::on_enter_vertex]; the vertex it returns is its
    argument. *)
Definition on_enter_vertex (root : VertexPtr) (p : t) : t :=
  match try_as_func_call root with
  | Some call =>
      if func_id_is_resumable call then
        let p1 :=
          if decide (str_val call = "wait") then
            push_waitable (get_type root) p
          else if decide (str_val call = "wait_multi") then
            push_waitable (const_read_at (get_type root) Key.any_key)
              (push_forkable (const_read_at (get_type root) Key.any_key) p)
          else p in
        push_forkable (get_type root) p1
      else if decide (str_val call = "wait_synchronously") then
        push_waitable (get_type root) p
      else p
  | None => p
  end.

(** [run_function_pass] is absent: it enters the vertices of a function one
    after the other; [roots] are those vertices in the order of the walk. *)
Definition run_function_pass (roots : list VertexPtr) (p : t) : t :=
  foldl (λ p root, on_enter_vertex root p) p roots.

(** The calls among [roots] that make a type forkable, with that type. *)
Definition makes_forkable (root : VertexPtr) (x : TypePtr) : Prop :=
  ∃ call, try_as_func_call root = Some call ∧
    func_id_is_resumable call = true ∧
    (x = get_type root ∨
     str_val call = "wait_multi" ∧ x = const_read_at (get_type root) Key.any_key).

(** The calls among [roots] that make a type waitable, with that type. *)
Definition makes_waitable (root : VertexPtr) (x : TypePtr) : Prop :=
  ∃ call, try_as_func_call root = Some call ∧
    (func_id_is_resumable call = true ∧ str_val call = "wait" ∧
       x = get_type root ∨
     func_id_is_resumable call = true ∧ str_val call = "wait_multi" ∧
       x = const_read_at (get_type root) Key.any_key ∨
     func_id_is_resumable call = false ∧ str_val call = "wait_synchronously" ∧
       x = get_type root).

End Pass.

Arguments t : clear implicits.

End CollectForkableTypes.

(** *** [CodeGenF] *)

Section CodeGenF.

Context {VertexPtr TypePtr VarPtr : Type}.

Variable try_as_func_call :
  VertexPtr → option CollectForkableTypes.func_call.
Variable get_type : VertexPtr → TypePtr.
Variable const_read_at : TypePtr → Key.t → TypePtr.

(** The two vectors of [CodeGenF] that [execute] fills. *)
Record CodeGenF : Type := {
  waitable_types : list TypePtr;
  forkable_types : list TypePtr
}.

(** [CodeGenF::execute] on these vectors, for a function whose vertices are
    [roots].  The two [insert] calls run under the lock, so one call of
    [execute] appends without another in between.  The rest of [execute]
    (the destination directory, the forwarding to the stream) touches
    neither vector. *)
Definition execute (roots : list VertexPtr) (cg : CodeGenF) : CodeGenF :=
  let pass :=
    CollectForkableTypes.run_function_pass try_as_func_call get_type
      const_read_at roots CollectForkableTypes.empty in
  if negb (bool_decide (CollectForkableTypes.waitable_types pass = []))
     || negb (bool_decide (CollectForkableTypes.forkable_types pass = []))
  then
    {| waitable_types :=
         waitable_types cg ++ CollectForkableTypes.waitable_types pass;
       forkable_types :=
         forkable_types cg ++ CollectForkableTypes.forkable_types pass |}
  else cg.

(** [execute] for the functions of a program, in the order in which the
    calls take the lock. *)
Definition execute_all (functions : list (list VertexPtr)) (cg : CodeGenF)
  : CodeGenF :=
  foldl (λ cg roots, execute roots cg) cg functions.

(** [CodeGenF::calc_count_of_parts]; [globals_split_count] is the setting
    [G->settings().globals_split_count.get()].  The division is that of
    [size_t]; by zero it is undefined in the source. *)
Definition calc_count_of_parts (globals_split_count cnt_global_vars : Z) : Z :=
  to_size_t (1 + cnt_global_vars / globals_split_count).

(** [vk::std_hash] (absent): the hash of a string. *)
Variable std_hash : string → Z.

(** [CodeGenF::get_subdir]. *)
Definition get_subdir (base : string) : string :=
  let bucket := to_int (Z.rem (std_hash base) 100) in
  "o_" +:+ std_to_string bucket.

(** The names [get_subdir] can return for a hash that is not negative. *)
Definition subdirs : list string :=
  (λ b, "o_" +:+ std_to_string b) <$> seqZ 0 100.

(** [FunctionData::func_class_holder] against the other function types, and
    [FunctionData::body_value::empty] against the other body values: the
    enumerations are declared in a header that is absent, and the code
    compares with these two members only. *)
Inductive function_type : Type := func_class_holder | func_other.
Inductive body_value : Type := body_empty | body_other.

(** The members of [FunctionData] that code-gen.cpp reads or writes.
    [short_file_name] is [file_id->short_file_name], [headers_dir] is
    [file_id->owner_lib->headers_dir()], and [is_extern] and
    [is_imported_from_static_lib] are the values of the methods of these
    names. *)
Record FunctionData : Type := {
  name : string;
  header_name : string;
  subdir : string;
  src_name : string;
  header_full_name : string;
  is_inline : bool;
  short_file_name : string;
  is_imported_from_static_lib : bool;
  headers_dir : string;
  static_var_ids : list VarPtr;
  global_var_ids : list VarPtr;
  local_var_ids : list VarPtr;
  type : function_type;
  body_seq : body_value;
  is_extern : bool;
  kphp_lib_export : bool
}.

(** [my_unique] (absent) rewrites a vector of variables in place. *)
Variable my_unique : list VarPtr → list VarPtr.

(** [CodeGenF::prepare_generate_function]. *)
Definition prepare_generate_function (func : FunctionData) : FunctionData :=
  let file_name := std_replace "$" "@" (name func) in
  let header_name' := file_name +:+ ".h" in
  let subdir' := get_subdir (short_file_name func) in
  let src_name' :=
    if negb (is_inline func) then file_name +:+ ".cpp" else src_name func in
  let header_full_name' :=
    if is_imported_from_static_lib func
    then headers_dir func +:+ header_name'
    else subdir' +:+ "/" +:+ header_name' in
  {| name := name func;
     header_name := header_name';
     subdir := subdir';
     src_name := src_name';
     header_full_name := header_full_name';
     is_inline := is_inline func;
     short_file_name := short_file_name func;
     is_imported_from_static_lib := is_imported_from_static_lib func;
     headers_dir := headers_dir func;
     static_var_ids := my_unique (static_var_ids func);
     global_var_ids := my_unique (global_var_ids func);
     local_var_ids := my_unique (local_var_ids func);
     type := type func;
     body_seq := body_seq func;
     is_extern := is_extern func;
     kphp_lib_export := kphp_lib_export func |}.

End CodeGenF.

Arguments CodeGenF : clear implicits.
Arguments FunctionData : clear implicits.

(** *** [on_finish] *)

(** [ClassType]: the two members for which [on_finish] writes a declaration,
    [trait], and whatever else the [default] label catches. *)
Inductive ClassType : Type := klass | interface | trait | class_type_other.

(** The settings [G->settings()] that code-gen.cpp reads.  The last five are
    written to a file with [operator<<]; they are kept as the text written. *)
Record CompilerSettings : Type := {
  globals_split_count : Z;
  is_static_lib_mode : bool;
  is_server_mode : bool;
  is_cli_mode : bool;
  enable_global_vars_memory_stats : bool;
  runtime_sha256 : string;
  cxx : string;
  cxx_flags : string;
  debug_level : string;
  mode : string
}.

Section OnFinish.

(** Pointers are kept abstract; all of them point to live objects. *)
Context {FunctionPtr ClassPtr SrcFilePtr VarPtr TypePtr : Type}.
Context `{EqDecision FunctionPtr}.

Variable std_hash : string → Z.
Variable my_unique : list VarPtr → list VarPtr.

(** [ClassData::does_need_codegen(c)], [c->class_type] and
    [main_file->main_function]. *)
Variable does_need_codegen : ClassPtr → bool.
Variable class_type : ClassPtr → ClassType.
Variable main_function : SrcFilePtr → FunctionPtr.

(** What code-gen.cpp reads of the compiler core [G]. *)
Record CompilerCore : Type := {
  settings : CompilerSettings;
  get_classes : list ClassPtr;
  get_main_files : list SrcFilePtr;
  get_global_vars : list VarPtr
}.

(** The tasks that [on_finish] hands to the code generator with [Async]. *)
Inductive task : Type :=
  | FunctionH (function : FunctionPtr)
  | FunctionCpp (function : FunctionPtr)
  | ClassDeclaration (c : ClassPtr)
  | InterfaceDeclaration (c : ClassPtr)
  | GlobalVarsReset (main_file : SrcFilePtr)
  | GlobalVarsMemoryStats (main_files : list SrcFilePtr)
  | InitScriptsCpp (main_files : list SrcFilePtr) (all_functions : list FunctionPtr)
  | VarsCpp (vars : list VarPtr) (parts_cnt : Z)
  | LibHeaderH (exported_function : FunctionPtr)
  | LibHeaderTxt (exported_functions : list FunctionPtr)
  | StaticLibraryRunGlobalHeaderH
  | TypeTagger (forkable_types waitable_types : list TypePtr).

(** What is written to the code generator [W] with [<<], in the order of
    writing.  [TlQueryHandlers] stands for what
    [tl2cpp::write_tl_query_handlers(W)] (absent) writes. *)
Inductive token : Type :=
  | Async (t : task)
  | OpenFile (file_name : string)
  | CloseFile
  | Text (s : string)
  | NL
  | BEGIN
  | END
  | SemicolonAndNL
  | ExternInclude (file_name : string)
  | TlQueryHandlers.

(** The functions of the program: what each [FunctionPtr] points to. *)
Definition functions : Type := FunctionPtr → FunctionData VarPtr.

(** A write through a [FunctionPtr]. *)
Definition write_function (function : FunctionPtr) (d : FunctionData VarPtr)
    (σ : functions) : functions :=
  λ g, if decide (g = function) then d else σ g.

(** The lambda [should_gen_function] of [on_finish]; [main_functions] is the
    set of the main functions of the main files. *)
Definition should_gen_function (main_functions : list FunctionPtr)
    (σ : functions) (fun_ : FunctionPtr) : bool :=
  match type (σ fun_) with
  | func_class_holder => false
  | func_other =>
      match body_seq (σ fun_) with
      | body_other => true
      | body_empty => bool_decide (fun_ ∈ main_functions)
      end
  end.

(** The first loop of [on_finish] over [xall]: every function to generate is
    prepared in place.  ([G->stats.on_function_processed] only counts.) *)
Definition prepare_functions (main_functions : list FunctionPtr)
    (xall : list FunctionPtr) (σ : functions) : functions :=
  foldl (λ σ fun_,
           if should_gen_function main_functions σ fun_
           then write_function fun_
                  (prepare_generate_function std_hash my_unique (σ fun_)) σ
           else σ) σ xall.

(** The state of the second loop over [xall]. *)
Record function_loop : Type := FunctionLoop {
  all_functions : list FunctionPtr;
  exported_functions : list FunctionPtr;
  function_tokens : list token
}.

(** One round of the second loop over [xall]. *)
Definition function_step (G : CompilerCore) (main_functions : list FunctionPtr)
    (σ : functions) (l : function_loop) (function : FunctionPtr) : function_loop :=
  if negb (should_gen_function main_functions σ function) then l
  else if is_extern (σ function) then l
  else
    {| all_functions := all_functions l ++ [function];
       exported_functions :=
         if kphp_lib_export (σ function) && is_static_lib_mode (settings G)
         then exported_functions l ++ [function]
         else exported_functions l;
       function_tokens :=
         function_tokens l ++ [Async (FunctionH function); Async (FunctionCpp function)] |}.

(** The loop of [on_finish] over the classes; [kphp_assert(false)] stops the
    compiler. *)
Fixpoint class_loop (all_classes : list ClassPtr) (W : list token)
  : result (list token) :=
  match all_classes with
  | [] => Ok W
  | c :: all_classes' =>
      if negb (does_need_codegen c) then class_loop all_classes' W
      else
        match class_type c with
        | klass => class_loop all_classes' (W ++ [Async (ClassDeclaration c)])
        | interface => class_loop all_classes' (W ++ [Async (InterfaceDeclaration c)])
        | trait | class_type_other => Fatal
        end
  end.

(** [CodeGenF::write_lib_version]. *)
Definition write_lib_version (G : CompilerCore) : list token :=
  [ OpenFile "_lib_version.h";
    Text "// Runtime sha256: "; Text (runtime_sha256 (settings G)); NL;
    Text "// CXX: "; Text (cxx (settings G)); NL;
    Text "// CXXFLAGS: "; Text (cxx_flags (settings G)); NL;
    Text "// DEBUG: "; Text (debug_level (settings G)); NL;
    CloseFile ].

(** [CodeGenF::write_main]; a failing [kphp_assert] stops the compiler. *)
Definition write_main (G : CompilerCore) : result (list token) :=
  if is_server_mode (settings G) || is_cli_mode (settings G) then
    Ok [ OpenFile "main.cpp";
         ExternInclude "server/php-engine.h"; NL;
         Text "int main(int argc, char *argv[]) "; BEGIN;
         Text "return run_main(argc, argv, php_mode::";
         Text (mode (settings G)); Text ")"; SemicolonAndNL;
         END;
         CloseFile ]
  else Fatal.

(** [CodeGenF::on_finish], from the point where [stage::die_if_global_errors]
    has returned.  [xall] is the content of [tmp_stream] as [xall.sort()]
    leaves it, [σ] the functions before the call; the result is what was
    written to [W], in order, with the functions after the call.
    [prepare_generate_class] is empty. *)
Definition on_finish (G : CompilerCore) (xall : list FunctionPtr)
    (cg : CodeGenF TypePtr) (σ : functions)
  : result (list token * functions) :=
  let all_classes := get_classes G in
  let main_files := get_main_files G in
  let main_functions := main_function <$> main_files in
  let σ' := prepare_functions main_functions xall σ in
  let l := foldl (function_step G main_functions σ') (FunctionLoop [] [] []) xall in
  match class_loop all_classes (function_tokens l) with
  | Ok W =>
      let W := W ++ ((λ main_file, Async (GlobalVarsReset main_file)) <$> main_files) in
      let W :=
        if enable_global_vars_memory_stats (settings G)
        then W ++ [Async (GlobalVarsMemoryStats main_files)] else W in
      let W := W ++ [Async (InitScriptsCpp main_files (all_functions l))] in
      let vars :=
        foldl (λ vars fun_, vars ++ static_var_ids (σ' fun_)) (get_global_vars G) xall in
      let parts_cnt :=
        calc_count_of_parts (globals_split_count (settings G))
          (Z.of_nat (length vars)) in
      let W := W ++ [Async (VarsCpp vars parts_cnt)] in
      let W :=
        if is_static_lib_mode (settings G) then
          W ++ ((λ exported_function, Async (LibHeaderH exported_function))
                  <$> exported_functions l)
            ++ [Async (LibHeaderTxt (exported_functions l));
                Async StaticLibraryRunGlobalHeaderH]
        else
          W ++ [Async (TypeTagger (forkable_types cg) (waitable_types cg))] in
      let W := W ++ [TlQueryHandlers] in
      let W := W ++ write_lib_version G in
      if negb (is_static_lib_mode (settings G)) then
        match write_main G with
        | Ok main => Ok (W ++ main, σ')
        | Fatal => Fatal
        | Segfault => Segfault
        end
      else Ok (W, σ')
  | Fatal => Fatal
  | Segfault => Segfault
  end.

(** A function without its three vectors of variables. *)
Definition without_vars (d : FunctionData VarPtr) : FunctionData VarPtr :=
  {| name := name d; header_name := header_name d; subdir := subdir d;
     src_name := src_name d; header_full_name := header_full_name d;
     is_inline := is_inline d; short_file_name := short_file_name d;
     is_imported_from_static_lib := is_imported_from_static_lib d;
     headers_dir := headers_dir d;
     static_var_ids := []; global_var_ids := []; local_var_ids := [];
     type := type d; body_seq := body_seq d; is_extern := is_extern d;
     kphp_lib_export := kphp_lib_export d |}.

(** The functions of [xall] for which the second loop writes files. *)
Definition generated (main_functions : list FunctionPtr) (σ : functions)
    (function : FunctionPtr) : bool :=
  should_gen_function main_functions σ function && negb (is_extern (σ function)).

(** The classes at which the loop over the classes stops the compiler. *)
Definition unexpected_class (c : ClassPtr) : bool :=
  does_need_codegen c &&
  match class_type c with
  | klass | interface => false
  | trait | class_type_other => true
  end.

(** What the loop over the classes writes when it passes. *)
Definition class_tokens (all_classes : list ClassPtr) : list token :=
  all_classes ≫= λ c,
    if does_need_codegen c then
      match class_type c with
      | klass => [Async (ClassDeclaration c)]
      | interface => [Async (InterfaceDeclaration c)]
      | trait | class_type_other => []
      end
    else [].

End OnFinish.

Arguments task : clear implicits.
Arguments token : clear implicits.
Arguments CompilerCore : clear implicits.
Arguments functions : clear implicits.

(** Vertices and types as numbers, for the examples: vertex 1 is a
    resumable call of [wait], vertex 2 a resumable call of [wait_multi],
    vertex 3 a call of [wait_synchronously] that is not resumable, vertex 4
    a resumable call of another function; the type of vertex [n] is [10 * n]
    and the element type of type [x] is [x + 1]. *)
Definition sample_call (root : nat) : option CollectForkableTypes.func_call :=
  match root with
  | 1%nat => Some (CollectForkableTypes.FuncCall true "wait")
  | 2%nat => Some (CollectForkableTypes.FuncCall true "wait_multi")
  | 3%nat => Some (CollectForkableTypes.FuncCall false "wait_synchronously")
  | 4%nat => Some (CollectForkableTypes.FuncCall true "f")
  | _ => None
  end.
Definition sample_type (root : nat) : nat := (10 * root)%nat.
Definition sample_read_at (x : nat) (_ : Key.t) : nat := S x.

(** A function of [index.php] with nothing prepared yet, for the examples. *)
Definition sample_function_of (n : string) (ty : function_type)
    (body : body_value) (extern export : bool) (statics : list nat)
  : FunctionData nat :=
  {| name := n; header_name := ""; subdir := ""; src_name := "";
     header_full_name := ""; is_inline := false; short_file_name := "index.php";
     is_imported_from_static_lib := false; headers_dir := "";
     static_var_ids := statics; global_var_ids := []; local_var_ids := [];
     type := ty; body_seq := body; is_extern := extern;
     kphp_lib_export := export |}.
Definition sample_function (n : string) : FunctionData nat :=
  sample_function_of n func_other body_other false false [].

(** Functions, classes and files as numbers, for the examples: function 1
    is a method with a static variable listed twice, function 2 is extern,
    function 3 is exported, function 4 is the main function and has an
    empty body, function 5 holds a class, every other function has an
    empty body; class 1 is a class proper, class 2 an interface, class 3 a
    trait that needs no code; file 0 is the main file. *)
Definition sample_functions : functions nat nat :=
  λ f, match f with
       | 1%nat => sample_function_of "A$$f" func_other body_other false false [7; 7]%nat
       | 2%nat => sample_function_of "strlen" func_other body_other true false []
       | 3%nat => sample_function_of "api" func_other body_other false true [8%nat]
       | 4%nat => sample_function_of "main" func_other body_empty false false []
       | 5%nat => sample_function_of "A" func_class_holder body_other false false []
       | _ => sample_function_of "" func_other body_empty false false []
       end.
Definition sample_needs_codegen (c : nat) : bool := negb (c =? 3)%nat.
Definition sample_class_type (c : nat) : ClassType :=
  match c with 1%nat => klass | 2%nat => interface | _ => trait end.
Definition sample_main_function (main_file : nat) : nat := 4%nat.
Definition sample_core (static : bool) : CompilerCore nat nat nat :=
  {| settings :=
       {| globals_split_count := 2; is_static_lib_mode := static;
          is_server_mode := true; is_cli_mode := false;
          enable_global_vars_memory_stats := false;
          runtime_sha256 := "00"; cxx := "g++"; cxx_flags := "-O2";
          debug_level := "0"; mode := "server" |};
     get_classes := [1; 2; 3]%nat;
     get_main_files := [0%nat];
     get_global_vars := [100; 101]%nat |}.
Definition sample_xall : list nat := [1; 2; 3; 4; 5]%nat.
Definition sample_cg : CodeGenF nat :=
  {| waitable_types := [10%nat]; forkable_types := [20%nat] |}.
Definition sample_on_finish (static : bool)
  : result (list (token nat nat nat nat nat) * functions nat nat) :=
  on_finish Key.sample_hash remove_dups sample_needs_codegen sample_class_type
    sample_main_function (sample_core static) sample_xall sample_cg
    sample_functions.

End CodeGen.

(** * Properties *)

(** ** Machine integers *)

(** Expose the powers of two as numerals. *)
Ltac int_consts :=
  change (2 ^ 32) with 4294967296 in *;
  change (2 ^ 31) with 2147483648 in *;
  change (2 ^ 30) with 1073741824 in *.

(** Linear arithmetic with division and remainder by those numerals. *)
Ltac int_lia := int_consts; Z.div_mod_to_equations; lia.

Lemma to_int_range z : - 2 ^ 31 ≤ to_int z < 2 ^ 31.
Proof. unfold to_int. int_lia. Qed.

Lemma to_int_small z : - 2 ^ 31 ≤ z < 2 ^ 31 → to_int z = z.
Proof. unfold to_int. int_lia. Qed.

Lemma to_int_shift z q : to_int (z + q * 2 ^ 32) = to_int z.
Proof.
  unfold to_int.
  replace (z + q * 2 ^ 32 + 2 ^ 31) with (z + 2 ^ 31 + q * 2 ^ 32) by lia.
  by rewrite Z.mod_add.
Qed.

Lemma to_int_to_uint z : to_int (to_uint z) = to_int z.
Proof.
  unfold to_uint. rewrite (Z.mod_eq z (2 ^ 32)) by lia.
  replace (z - 2 ^ 32 * (z `div` 2 ^ 32))
    with (z + (- (z `div` 2 ^ 32)) * 2 ^ 32) by lia.
  apply to_int_shift.
Qed.

Lemma to_uint_range z : 0 ≤ to_uint z < 2 ^ 32.
Proof. unfold to_uint. int_lia. Qed.

Lemma to_uint_small z : 0 ≤ z < 2 ^ 32 → to_uint z = z.
Proof. unfold to_uint. int_lia. Qed.

(** The id computed by [Key::int_key] is [key * 2 + 1] reduced to an [int]. *)
Lemma int_key_id_wrap key :
  to_int (to_uint (to_uint key * 2 + 1)) = to_int (key * 2 + 1).
Proof.
  rewrite to_int_to_uint. unfold to_uint.
  rewrite (Z.mod_eq key (2 ^ 32)) by lia.
  replace ((key - 2 ^ 32 * (key `div` 2 ^ 32)) * 2 + 1)
    with (key * 2 + 1 + (- 2 * (key `div` 2 ^ 32)) * 2 ^ 32) by lia.
  apply to_int_shift.
Qed.

Lemma odd_to_int z : Z.odd (to_int z) = Z.odd z.
Proof.
  unfold to_int. rewrite (Z.mod_eq (z + 2 ^ 31) (2 ^ 32)) by lia.
  replace (z + 2 ^ 31 - 2 ^ 32 * ((z + 2 ^ 31) `div` 2 ^ 32) - 2 ^ 31)
    with (z + 2 * (- 2 ^ 31 * ((z + 2 ^ 31) `div` 2 ^ 32))) by lia.
  apply Z.odd_add_mul_2.
Qed.

Lemma even_to_int z : Z.even (to_int z) = Z.even z.
Proof. by rewrite <- !Z.negb_odd, odd_to_int. Qed.

(** ** The key interner *)
Module KeyFacts.

Import Key.

Lemma pad_inj n m : pad n = pad m → n = m.
Proof.
  revert m. induction n as [|n IH]; intros [|m] Heq; simpl in Heq; try done.
  f_equal. apply IH. congruence.
Qed.

(** Pigeonhole: a hash with finitely many values is not injective. *)
Lemma bounded_hash_not_injective (h : string → Z) (B : Z) :
  (∀ s, 0 ≤ h s < B) → ¬ (∀ s1 s2, h s1 = h s2 → s1 = s2).
Proof.
  intros Hrange Hinj.
  set (n := Z.to_nat B).
  set (l := (λ i, h (pad i)) <$> seq 0 (S n)).
  assert (Hnd : NoDup l).
  { apply NoDup_fmap_2_strong; [|apply NoDup_seq].
    intros x y _ _ Hxy. by apply pad_inj, Hinj. }
  assert (Hsub : l ⊆+ seqZ 0 B).
  { apply NoDup_submseteq; [done|].
    intros x [i [-> _]]%list_elem_of_fmap. apply elem_of_seqZ.
    specialize (Hrange (pad i)). lia. }
  apply submseteq_length in Hsub.
  rewrite length_seqZ in Hsub. unfold l in Hsub.
  rewrite length_fmap, length_seq in Hsub. fold n in Hsub. lia.
Qed.

Section Facts.

Variable hash_ll : string → Z.

Lemma wf_init : wf hash_ll init.
Proof.
  split; simpl.
  - unfold max_string_keys. int_consts. lia.
  - intros h k Hl. by rewrite lookup_empty in Hl.
  - intros h k Hl. by rewrite lookup_empty in Hl.
  - intros i name Hl. by rewrite lookup_empty in Hl.
Qed.

(** *** [int_key] *)

Lemma int_key_create_wf i st :
  wf hash_ll st → wf hash_ll (int_key_create i st).2.
Proof.
  intros [Hc Hi Hs Hn]. split; simpl; try done.
  intros h k [[<- <-]|[Hne Hl']]%lookup_insert_Some.
  - split; [apply to_uint_range|]. simpl. by rewrite !to_int_to_uint.
  - by apply Hi.
Qed.

Lemma int_key_spec i st :
  wf hash_ll st →
  id (int_key i st).1 = to_int (i * 2 + 1) ∧
  int_keys_ht (int_key i st).2 !! to_uint i = Some (int_key i st).1 ∧
  string_keys_ht (int_key i st).2 = string_keys_ht st ∧
  string_key_names_ht (int_key i st).2 = string_key_names_ht st ∧
  n_string_keys_ht (int_key i st).2 = n_string_keys_ht st ∧
  wf hash_ll (int_key i st).2.
Proof.
  intros Hwf. unfold int_key.
  destruct (int_keys_ht st !! to_uint i) as [k|] eqn:Hl; simpl.
  - destruct (wf_int_keys _ _ Hwf _ _ Hl) as [_ Hid].
    split_and!; try done.
    rewrite Hid, <- (int_key_id_wrap i). symmetry. apply to_int_to_uint.
  - split_and!; try done.
    + apply int_key_id_wrap.
    + apply lookup_insert_eq.
    + by apply (int_key_create_wf i st).
Qed.

(** *** [string_key] *)

Lemma grows_refl st : grows st st.
Proof. by split. Qed.

Lemma grows_trans st1 st2 st3 : grows st1 st2 → grows st2 st3 → grows st1 st3.
Proof. intros [? ?] [? ?]. split; [by etrans|lia]. Qed.

Lemma string_key_spec s st :
  wf hash_ll st →
  n_string_keys_ht st < max_string_keys ∨ is_Some (string_keys_ht st !! hash_ll s) →
  ∃ k st',
    string_key hash_ll s st = Ok (k, st') ∧
    wf hash_ll st' ∧ grows st st' ∧
    string_keys_ht st' !! hash_ll s = Some k ∧
    n_string_keys_ht st' ≤ n_string_keys_ht st + 1 ∧
    (string_keys_ht st !! hash_ll s = None →
       id k = n_string_keys_ht st * 2 + 2 ∧
       string_key_names_ht st' !! id k = Some s).
Proof.
  intros Hwf Hroom. unfold string_key.
  destruct (string_keys_ht st !! hash_ll s) as [k|] eqn:Hl.
  { exists k, st. split_and!; try done; try apply grows_refl; try lia. }
  destruct Hroom as [Hroom|[? [=]]].
  destruct Hwf as [Hc Hi Hs Hn]. unfold max_string_keys in *.
  unfold string_key_create.
  assert (Hid : to_int (n_string_keys_ht st * 2 + 2) = n_string_keys_ht st * 2 + 2).
  { apply to_int_small. int_consts. lia. }
  assert (Hn1 : to_int (n_string_keys_ht st + 1) = n_string_keys_ht st + 1).
  { apply to_int_small. int_consts. lia. }
  simpl. rewrite Hid, Hn1.
  destruct (string_key_names_ht st !! (n_string_keys_ht st * 2 + 2)) as [name|] eqn:Hname.
  { destruct (Hn _ _ Hname) as (j & Hj & Heq). exfalso. lia. }
  eexists _, _. split; [done|]. split_and!; simpl.
  - split; simpl; try done.
    + unfold max_string_keys. lia.
    + intros h k [[<- <-]|[Hne Hl']]%lookup_insert_Some; simpl.
      * exists (n_string_keys_ht st), s.
        split_and!; first [lia | done | apply lookup_insert_eq].
      * destruct (Hs _ _ Hl') as (j & name & Hj & Hidk & Hnm & Hh).
        exists j, name. split_and!; try first [lia | done].
        rewrite lookup_insert_ne; [done|]. rewrite Hidk. lia.
    + intros i name [[<- <-]|[Hne Hl']]%lookup_insert_Some.
      * exists (n_string_keys_ht st). lia.
      * destruct (Hn _ _ Hl') as (j & Hj & Heq). exists j. lia.
  - split; simpl; [by apply insert_subseteq|lia].
  - apply lookup_insert_eq.
  - lia.
  - intros _. split; [done|apply lookup_insert_eq].
Qed.

(** Two hashes cached with the same key are the same hash. *)
Lemma wf_string_keys_inj st h1 h2 k :
  wf hash_ll st →
  string_keys_ht st !! h1 = Some k → string_keys_ht st !! h2 = Some k → h1 = h2.
Proof.
  intros Hwf H1 H2.
  destruct (wf_string_keys _ _ Hwf _ _ H1) as (j1 & n1 & _ & _ & Hn1 & <-).
  destruct (wf_string_keys _ _ Hwf _ _ H2) as (j2 & n2 & _ & _ & Hn2 & <-).
  congruence.
Qed.

Lemma serve_spec r st :
  wf hash_ll st → n_string_keys_ht st < max_string_keys →
  ∃ k st', serve hash_ll r st = Ok (k, st') ∧ wf hash_ll st' ∧ grows st st' ∧
           n_string_keys_ht st' ≤ n_string_keys_ht st + 1.
Proof.
  intros Hwf Hroom. destruct r as [i|s]; simpl.
  - destruct (int_key_spec i st Hwf) as (_ & _ & Hs & _ & Hn & Hwf').
    exists (int_key i st).1, (int_key i st).2.
    split; [by destruct (int_key i st)|].
    split_and!; [done| |lia]. split; [by rewrite Hs|lia].
  - destruct (string_key_spec s st Hwf (or_introl Hroom))
      as (k & st' & -> & ? & ? & ? & ? & ?). eauto 10.
Qed.

Lemma run_spec rs st :
  wf hash_ll st →
  n_string_keys_ht st + Z.of_nat (length rs) ≤ max_string_keys →
  ∃ ks st', run hash_ll rs st = Ok (ks, st') ∧ wf hash_ll st' ∧ grows st st' ∧
            n_string_keys_ht st' ≤ n_string_keys_ht st + Z.of_nat (length rs).
Proof.
  revert st. induction rs as [|r rs IH]; intros st Hwf Hroom; simpl in *.
  - exists [], st. split_and!; [done|done|apply grows_refl|lia].
  - destruct (serve_spec r st Hwf) as (k & st1 & -> & Hwf1 & Hg1 & Hn1); [lia|].
    destruct (IH st1 Hwf1) as (ks & st2 & -> & Hwf2 & Hg2 & Hn2); [lia|].
    exists (k :: ks), st2. split_and!; [done|done|by eapply grows_trans|lia].
Qed.

(** Every run of fewer than 2^30 requests from the empty tables succeeds and
    ends in tables that satisfy the invariant. *)
Lemma run_init_wf rs :
  Z.of_nat (length rs) ≤ max_string_keys →
  ∃ ks st, run hash_ll rs init = Ok (ks, st) ∧ wf hash_ll st.
Proof.
  intros Hlen. destruct (run_spec rs init wf_init) as (ks & st & ? & ? & _); eauto.
Qed.

(** *** The stated properties of the interner *)

(** C1, as the code has it: a call of [string_key] on [s1], any run of further
    requests, then a call on [s2] all succeed while the counter has room, and
    the two calls return equal keys exactly when [s1] and [s2] have the same
    hash; in particular the same string always gets the same key. *)
Theorem string_key_equal_iff_same_hash st s1 rs s2 :
  wf hash_ll st →
  n_string_keys_ht st + Z.of_nat (length rs) + 2 ≤ max_string_keys →
  ∃ k1 st1 ks st2 k2 st3,
    string_key hash_ll s1 st = Ok (k1, st1) ∧
    run hash_ll rs st1 = Ok (ks, st2) ∧
    string_key hash_ll s2 st2 = Ok (k2, st3) ∧
    (k1 = k2 ↔ hash_ll s1 = hash_ll s2) ∧
    (s1 = s2 → k1 = k2).
Proof.
  intros Hwf Hroom.
  destruct (string_key_spec s1 st Hwf) as (k1 & st1 & E1 & Hwf1 & Hg1 & Hk1 & Hn1 & _);
    [left; lia|].
  destruct (run_spec rs st1 Hwf1) as (ks & st2 & E2 & Hwf2 & Hg2 & Hn2); [lia|].
  destruct (string_key_spec s2 st2 Hwf2) as (k2 & st3 & E3 & Hwf3 & Hg3 & Hk2 & _);
    [left; lia|].
  exists k1, st1, ks, st2, k2, st3. split_and!; try done.
  - assert (Hk1' : string_keys_ht st3 !! hash_ll s1 = Some k1).
    { eapply lookup_weaken; [|apply Hg3]. eapply lookup_weaken; [|apply Hg2]. done. }
    split.
    + intros ->. by eapply wf_string_keys_inj.
    + intros Hh. rewrite Hh in Hk1'. congruence.
  - intros <-.
    assert (Hk1' : string_keys_ht st3 !! hash_ll s1 = Some k1).
    { eapply lookup_weaken; [|apply Hg3]. eapply lookup_weaken; [|apply Hg2]. done. }
    congruence.
Qed.

(** C2, as the code has it: the any-key has id 0; the id of [int_key i] is odd
    and is [i * 2 + 1] reduced to an [int], which is [i * 2 + 1] itself for
    [-2^30 <= i < 2^30]; while the counter has room the id of [string_key s]
    is even, at least 2 and of the form [c * 2 + 2] for a counter value [c]
    (the current one when the key is created); and the ids of the three
    operations never coincide. *)
Theorem key_id_spaces st_i st_s i s :
  wf hash_ll st_i → wf hash_ll st_s →
  n_string_keys_ht st_s < max_string_keys →
  ∃ ks st_s',
    string_key hash_ll s st_s = Ok (ks, st_s') ∧
    id any_key = 0 ∧
    Z.odd (id (int_key i st_i).1) = true ∧
    id (int_key i st_i).1 = to_int (i * 2 + 1) ∧
    (- 2 ^ 30 ≤ i < 2 ^ 30 → id (int_key i st_i).1 = i * 2 + 1) ∧
    Z.even (id ks) = true ∧ 2 ≤ id ks ∧
    (∃ c, 0 ≤ c ≤ n_string_keys_ht st_s ∧ id ks = c * 2 + 2) ∧
    (string_keys_ht st_s !! hash_ll s = None →
       id ks = n_string_keys_ht st_s * 2 + 2) ∧
    id (int_key i st_i).1 ≠ id ks ∧
    id (int_key i st_i).1 ≠ id any_key ∧
    id ks ≠ id any_key.
Proof.
  intros Hwfi Hwfs Hroom.
  destruct (int_key_spec i st_i Hwfi) as (Hid & _).
  destruct (string_key_spec s st_s Hwfs (or_introl Hroom))
    as (ks & st' & E & Hwf' & Hg & Hk & Hn & Hfresh).
  assert (Hodd : Z.odd (id (int_key i st_i).1) = true).
  { rewrite Hid, odd_to_int, Z.add_comm, Z.mul_comm. by rewrite Z.odd_add_mul_2. }
  assert (Hc : ∃ c, 0 ≤ c ≤ n_string_keys_ht st_s ∧ id ks = c * 2 + 2).
  { destruct (string_keys_ht st_s !! hash_ll s) as [k0|] eqn:Hl.
    - unfold string_key in E. rewrite Hl in E. injection E as -> ->.
      destruct (wf_string_keys _ _ Hwfs _ _ Hl) as (j & ? & ? & ? & _).
      exists j. lia.
    - destruct (Hfresh eq_refl) as [Hidk _].
      exists (n_string_keys_ht st_s). destruct (wf_counter _ _ Hwfs). lia. }
  destruct Hc as (c & Hcr & Hidc).
  assert (Heven : Z.even (id ks) = true).
  { rewrite Hidc, Z.add_comm, Z.mul_comm.
    replace (2 + 2 * c) with (0 + 2 * (c + 1)) by lia. by rewrite Z.even_add_mul_2. }
  exists ks, st'. split_and!; try done.
  - intros Hi. rewrite Hid. apply to_int_small. int_consts. lia.
  - lia.
  - by exists c.
  - intros Hl. by destruct (Hfresh Hl).
  - intros Heq. rewrite Heq, <- Z.negb_even, Heven in Hodd. done.
  - simpl. intros Heq. by rewrite Heq in Hodd.
  - simpl. lia.
Qed.

Lemma c_str_no_nul s : has_nul s = false → c_str s = s.
Proof.
  induction s as [|c s IH]; simpl; [done|].
  destruct (Ascii.eqb c Ascii.zero); simpl; [done|]. intros H. by rewrite IH.
Qed.

(** C8, as the code has it: [to_string] renders [int_key i] as the decimal
    numeral of [i] for [-2^30 <= i < 2^30]; it renders a string key as the
    name stored when the key was created, up to its first NUL character (the
    whole name when it holds none), and that name is the requested string
    for a fresh key; it renders the any-key as "Any"; and an id of no class
    (even and negative) is fatal. *)
Theorem to_string_decodes st i s :
  wf hash_ll st →
  n_string_keys_ht st < max_string_keys →
  - 2 ^ 30 ≤ i < 2 ^ 30 →
  to_string (int_key i st).1 (int_key i st).2 = Ok (dl_pstr_d i) ∧
  (∃ k st' name,
     string_key hash_ll s st = Ok (k, st') ∧
     string_key_names_ht st' !! id k = Some name ∧
     hash_ll name = hash_ll s ∧
     (string_keys_ht st !! hash_ll s = None → name = s) ∧
     to_string k st' = Ok (c_str name) ∧
     (has_nul name = false → to_string k st' = Ok name)) ∧
  (∀ st0, to_string any_key st0 = Ok "Any"%string) ∧
  (∀ k st0, Z.even (id k) = true → id k < 0 → to_string k st0 = Fatal).
Proof.
  intros Hwf Hroom Hi. split_and!.
  - destruct (int_key_spec i st Hwf) as (Hid & _).
    unfold to_string, is_int_key.
    assert (Hid' : id (int_key i st).1 = i * 2 + 1).
    { rewrite Hid. apply to_int_small. int_consts. lia. }
    rewrite Hid'.
    replace (Z.odd (i * 2 + 1)) with true
      by (rewrite Z.add_comm, Z.mul_comm; by rewrite Z.odd_add_mul_2).
    replace (i * 2 + 1 - 1) with (i * 2) by lia.
    rewrite to_int_small by (int_consts; lia).
    by rewrite Z.quot_mul.
  - destruct (string_key_spec s st Hwf (or_introl Hroom))
      as (k & st' & E & Hwf' & Hg & Hk & Hn & Hfresh).
    destruct (wf_string_keys _ _ Hwf' _ _ Hk) as (j & name & Hj & Hidk & Hname & Hh).
    assert (Hts : to_string k st' = Ok (c_str name)).
    { unfold to_string, is_int_key, is_string_key. rewrite Hname, Hidk.
      replace (Z.odd (j * 2 + 2)) with false.
      2:{ replace (j * 2 + 2) with (0 + 2 * (j + 1)) by lia.
          by rewrite Z.odd_add_mul_2. }
      replace (Z.even (j * 2 + 2)) with true.
      2:{ replace (j * 2 + 2) with (0 + 2 * (j + 1)) by lia.
          by rewrite Z.even_add_mul_2. }
      replace (2 <=? j * 2 + 2) with true by (symmetry; apply Z.leb_le; lia).
      done. }
    exists k, st', name. split_and!; try done.
    + intros Hl. destruct (Hfresh Hl) as [_ Hs]. congruence.
    + intros Hnul. by rewrite Hts, c_str_no_nul.
  - done.
  - intros k st0 Heven Hneg. unfold to_string, is_int_key, is_string_key, is_any_key.
    rewrite <- Z.negb_even, Heven. simpl.
    replace (2 <=? id k) with false by (symmetry; apply Z.leb_gt; lia).
    replace (id k =? 0) with false by (symmetry; apply Z.eqb_neq; lia).
    done.
Qed.

End Facts.

(** An example: "foo", then an integer key and "bar", then
    "foo" again, from the empty tables. *)
Lemma string_key_equal_iff_same_hash_witness :
  ∃ k1 st1 ks st2 k2 st3,
    string_key sample_hash "foo" init = Ok (k1, st1) ∧
    run sample_hash [IntKey 5; StringKey "bar"] st1 = Ok (ks, st2) ∧
    string_key sample_hash "foo" st2 = Ok (k2, st3) ∧
    (k1 = k2 ↔ sample_hash "foo" = sample_hash "foo") ∧
    ("foo"%string = "foo"%string → k1 = k2).
Proof.
  apply (string_key_equal_iff_same_hash sample_hash init "foo"
           [IntKey 5; StringKey "bar"] "foo");
    [apply wf_init | by vm_compute].
Defined.

(** Equal keys exactly for equal strings fails for every hash with finitely
    many values: some two different strings share a hash, the second request
    finds the key of the first in the cache, and the two requests return
    equal keys. *)
Lemma keys_equal_iff_strings_equal_refuted :
  ¬ ∃ (hash_ll : string → Z) (B : Z),
      (∀ s, 0 ≤ hash_ll s < B) ∧ keys_equal_iff_strings_equal hash_ll.
Proof.
  intros (h & B & Hrange & Hiff).
  apply (bounded_hash_not_injective h B Hrange). intros s1 s2 Heq.
  destruct (string_key_spec h s1 init (wf_init h))
    as (k1 & st1 & E1 & _ & _ & Hk1 & _); [left; by vm_compute|].
  assert (E2 : string_key h s2 st1 = Ok (k1, st1)).
  { unfold string_key. by rewrite <- Heq, Hk1. }
  by apply (Hiff s1 s2 k1 st1 k1 st1 E1 E2).
Qed.

(** An example: the keys of 5 and of "foo" from the empty
    tables. *)
Lemma key_id_spaces_witness :
  ∃ ks st_s',
    string_key sample_hash "foo" init = Ok (ks, st_s') ∧
    id any_key = 0 ∧
    Z.odd (id (int_key 5 init).1) = true ∧
    id (int_key 5 init).1 = to_int (5 * 2 + 1) ∧
    (- 2 ^ 30 ≤ 5 < 2 ^ 30 → id (int_key 5 init).1 = 5 * 2 + 1) ∧
    Z.even (id ks) = true ∧ 2 ≤ id ks ∧
    (∃ c, 0 ≤ c ≤ n_string_keys_ht init ∧ id ks = c * 2 + 2) ∧
    (string_keys_ht init !! sample_hash "foo" = None →
       id ks = n_string_keys_ht init * 2 + 2) ∧
    id (int_key 5 init).1 ≠ id ks ∧
    id (int_key 5 init).1 ≠ id any_key ∧
    id ks ≠ id any_key.
Proof.
  apply (key_id_spaces sample_hash init init 5 "foo");
    [apply wf_init | apply wf_init | by vm_compute].
Defined.

(** The id is not [i * 2 + 1] at [i = 2^30]: that is 2147483649, which no
    [int] holds, and the id of the key is -2147483647. *)
Lemma int_key_id_wraps :
  id (int_key 1073741824 init).1 = -2147483647 ∧
  id (int_key 1073741824 init).1 ≠ 1073741824 * 2 + 1.
Proof. split; by vm_compute. Qed.

(** Two different integers with one id. *)
Lemma int_key_ids_collide :
  id (int_key 1073741824 init).1 = id (int_key (-1073741824) init).1.
Proof. by vm_compute. Qed.

(** The key of -1 has the id of the uninitialized key. *)
Lemma int_key_minus_one_is_default : (int_key (-1) init).1 = default.
Proof. by vm_compute. Qed.

(** The examples of the specification. *)
Lemma to_string_decodes_witness :
  to_string (int_key 5 init).1 (int_key 5 init).2 = Ok "5"%string ∧
  (∃ k st' name,
     string_key sample_hash "foo" init = Ok (k, st') ∧
     string_key_names_ht st' !! id k = Some name ∧
     sample_hash name = sample_hash "foo" ∧
     (string_keys_ht init !! sample_hash "foo" = None → name = "foo"%string) ∧
     to_string k st' = Ok (c_str name) ∧
     (has_nul name = false → to_string k st' = Ok name)) ∧
  (∀ st0, to_string any_key st0 = Ok "Any"%string) ∧
  (∀ k st0, Z.even (id k) = true → id k < 0 → to_string k st0 = Fatal).
Proof.
  apply (to_string_decodes sample_hash init 5 "foo");
    [apply wf_init | by vm_compute | by vm_compute].
Defined.

(** The three renderings of the specification, computed. *)
Lemma to_string_examples :
  to_string (int_key 5 init).1 (int_key 5 init).2 = Ok "5"%string ∧
  (∃ k st', string_key sample_hash "foo" init = Ok (k, st') ∧
            to_string k st' = Ok "foo"%string) ∧
  to_string any_key init = Ok "Any"%string.
Proof.
  split_and!; [by vm_compute| |by vm_compute].
  eexists _, _. split; [vm_compute; reflexivity|]. vm_compute. reflexivity.
Qed.

(** The rendering is not the input at [int_key(2^30)], rendered as a negative
    number, and at a string with a NUL character, rendered up to that
    character. *)
Lemma to_string_loses_input :
  to_string (int_key 1073741824 init).1 (int_key 1073741824 init).2
    = Ok "-1073741824"%string ∧
  to_string (int_key 1073741824 init).1 (int_key 1073741824 init).2
    ≠ Ok (dl_pstr_d 1073741824) ∧
  ∃ k st',
    string_key sample_hash (String "a" (String Ascii.zero "b")) init = Ok (k, st') ∧
    to_string k st' = Ok "a"%string.
Proof.
  split_and!; [by vm_compute|by vm_compute|].
  eexists _, _. split; [vm_compute; reflexivity|]. vm_compute. reflexivity.
Qed.

End KeyFacts.

(** ** Flags and stamps of a node *)
Module TypeDataFacts.

Import TypeData.

Lemma flag_value_pos F : 0 < flag_value F.
Proof. destruct F; simpl; lia. Qed.

Section Facts.

Context {PrimitiveType ClassPtr : Type}.

Abbreviation node := (TypeData.t PrimitiveType ClassPtr).
Abbreviation store := (TypeData.store PrimitiveType ClassPtr).

Variable should_proxy : store → nat → bool.

(** *** Bits *)

Lemma get_flag_or_flag_same F (x : node) : get_flag F (or_flag F x) = true.
Proof.
  unfold get_flag, or_flag; simpl.
  rewrite Z.land_lor_distr_l, Z.land_diag.
  apply negb_true_iff, Z.eqb_neq. intros [_ H]%Z.lor_eq_0_iff.
  pose proof (flag_value_pos F). lia.
Qed.

Lemma get_flag_or_flag_mono F G (x : node) :
  get_flag G x = true → get_flag G (or_flag F x) = true.
Proof.
  unfold get_flag, or_flag; simpl. rewrite Z.land_lor_distr_l.
  intros H%negb_true_iff%Z.eqb_neq.
  apply negb_true_iff, Z.eqb_neq. intros [H' _]%Z.lor_eq_0_iff. done.
Qed.

Lemma or_flag_changes F (x : node) :
  get_flag F x = false → flags_ (or_flag F x) ≠ flags_ x.
Proof.
  intros Hoff Heq.
  pose proof (get_flag_or_flag_same F x) as Hon.
  unfold get_flag in *. rewrite Heq in Hon. congruence.
Qed.

Lemma or_flag_fields F (x : node) :
  parent_ (or_flag F x) = parent_ x ∧ generation_ (or_flag F x) = generation_ x.
Proof. done. Qed.

(** *** The primary template *)

Lemma set_flag_primary_eq F f a (σ : store) x :
  nodes σ !! a = Some x →
  set_flag_primary F f a σ =
    if get_flag F x then (if f then Ok σ else Fatal)
    else if f then Ok (on_changed a (write_node a (or_flag F x) σ))
    else Ok σ.
Proof. intros Hx. unfold set_flag_primary. by rewrite Hx. Qed.

Lemma lookup_on_changed_write a b (x : node) (σ : store) :
  nodes (on_changed a (write_node a x σ)) !! b =
    if decide (a = b) then Some (with_generation x (current_generation_ σ))
    else nodes σ !! b.
Proof.
  unfold on_changed, write_node; simpl. case_decide as Hab.
  - subst b. by rewrite lookup_alter_eq, lookup_insert_eq.
  - by rewrite lookup_alter_ne, lookup_insert_ne.
Qed.

(** Clearing a set flag through the primary template is fatal. *)
Lemma set_flag_clear_fatal F a (σ : store) x :
  F ≠ error_flag_e → nodes σ !! a = Some x → get_flag F x = true →
  set_flag should_proxy F false a σ = Some Fatal.
Proof.
  intros HF Hx Hon.
  destruct F; try done; simpl; by rewrite (set_flag_primary_eq _ _ _ _ x), Hon.
Qed.

(** *** The error specialization *)

Lemma set_flag_error_raised fuel f a (σ σ' : store) :
  set_flag_error should_proxy fuel f a σ = Some (Ok σ') → raised_error σ σ'.
Proof.
  revert a σ f. induction fuel as [|fuel IH]; intros a σ f; simpl; [done|].
  assert (Hrefl : raised_error σ σ) by (split; [done|by left]).
  destruct f; [|by intros [= <-]].
  destruct (nodes σ !! a) as [x|] eqn:Hx; [|done].
  destruct (get_flag error_flag_e x) eqn:Hoff; simpl; [by intros [= <-]|].
  assert (Hone : raised_error σ (write_node a (or_flag error_flag_e x) σ)).
  { split; [done|]. intros b. simpl. destruct (decide (a = b)) as [<-|Hne].
    - right. exists x. by rewrite lookup_insert_eq.
    - left. by rewrite lookup_insert_ne. }
  destruct (parent_ x) as [p|]; [|by intros [= <-]].
  destruct (should_proxy _ a); [|by intros [= <-]].
  intros [Hg Hr]%IH. split; [done|]. intros b.
  destruct (Hr b) as [Hsame|(y & Hy & Hyoff & Hy')].
  - rewrite Hsame. apply Hone.
  - simpl in Hy. destruct (decide (a = b)) as [<-|Hne].
    + rewrite lookup_insert_eq in Hy. injection Hy as <-.
      by rewrite get_flag_or_flag_same in Hyoff.
    + rewrite lookup_insert_ne in Hy by done. right. by exists y.
Qed.

Lemma error_unset_write a x (σ : store) :
  nodes σ !! a = Some x → get_flag error_flag_e x = false →
  size (error_unset (write_node a (or_flag error_flag_e x) σ))
    = pred (size (error_unset σ)) ∧
  (0 < size (error_unset σ))%nat.
Proof.
  intros Hx Hoff. unfold error_unset, write_node; simpl.
  assert (Hin : filter (λ kv : nat * node, get_flag error_flag_e kv.2 = false)
                  (nodes σ) !! a = Some x).
  { by apply map_lookup_filter_Some. }
  rewrite map_filter_insert_False
    by (simpl; by rewrite get_flag_or_flag_same).
  rewrite map_filter_delete, map_size_delete_Some by eauto.
  split; [done|].
  destruct (size _) eqn:Hsz; [|lia].
  apply map_size_empty_inv in Hsz. rewrite Hsz in Hin. by rewrite lookup_empty in Hin.
Qed.

Lemma parents_alive_write a x (σ : store) :
  parents_alive σ → nodes σ !! a = Some x →
  parents_alive (write_node a (or_flag error_flag_e x) σ).
Proof.
  intros Hpa Hx b y p. unfold write_node; simpl.
  intros [[<- <-]|[Hne Hy]]%lookup_insert_Some Hp.
  - rewrite lookup_insert_is_Some. destruct (decide (a = p)); [by left|right].
    split; [done|]. by apply (Hpa a x).
  - rewrite lookup_insert_is_Some. destruct (decide (a = p)); [by left|right].
    split; [done|]. by apply (Hpa b y).
Qed.

(** With one unit of fuel per node whose error flag is unset, and one more,
    the recursion ends; it ends well when every pointer it follows is alive. *)
Lemma set_flag_error_total fuel f a (σ : store) :
  (size (error_unset σ) < fuel)%nat →
  ∃ r, set_flag_error should_proxy fuel f a σ = Some r.
Proof.
  revert a σ f. induction fuel as [|fuel IH]; intros a σ f Hfuel; simpl; [lia|].
  destruct f; [|eauto].
  destruct (nodes σ !! a) as [x|] eqn:Hx; [|eauto].
  destruct (get_flag error_flag_e x) eqn:Hoff; simpl; [eauto|].
  destruct (parent_ x) as [p|]; [|eauto].
  destruct (should_proxy _ a); [|eauto].
  apply IH. destruct (error_unset_write a x σ Hx Hoff) as [-> ?]. lia.
Qed.

Lemma set_flag_error_ok fuel a (σ : store) :
  parents_alive σ → is_Some (nodes σ !! a) →
  (size (error_unset σ) < fuel)%nat →
  ∃ σ', set_flag_error should_proxy fuel true a σ = Some (Ok σ').
Proof.
  revert a σ. induction fuel as [|fuel IH]; intros a σ Hpa [x Hx] Hfuel; simpl; [lia|].
  rewrite Hx.
  destruct (get_flag error_flag_e x) eqn:Hoff; simpl; [eauto|].
  destruct (parent_ x) as [p|] eqn:Hp; [|eauto].
  destruct (should_proxy _ a); [|eauto].
  apply IH.
  - by apply parents_alive_write.
  - unfold write_node; simpl. rewrite lookup_insert_is_Some.
    destruct (decide (a = p)); [by left|right]. split; [done|]. by apply (Hpa a x).
  - destruct (error_unset_write a x σ Hx Hoff) as [-> ?]. lia.
Qed.

Lemma error_unset_size (σ : store) :
  (size (error_unset σ) < S (size (nodes σ)))%nat.
Proof.
  apply Nat.lt_succ_r, map_subseteq_size, map_filter_subseteq.
Qed.

(** [set_flag] always answers: the fuel it hands out is enough. *)
Lemma set_flag_total F f a (σ : store) :
  ∃ r, set_flag should_proxy F f a σ = Some r.
Proof.
  destruct F; try (simpl; by eauto).
  apply set_flag_error_total, error_unset_size.
Qed.

(** *** Flags are kept, stamps grow *)

Lemma flags_kept_refl (σ : store) : flags_kept σ σ.
Proof. intros a x Hx. eauto. Qed.

Lemma flags_kept_trans (σ1 σ2 σ3 : store) :
  flags_kept σ1 σ2 → flags_kept σ2 σ3 → flags_kept σ1 σ3.
Proof.
  intros H12 H23 a x Hx.
  destruct (H12 a x Hx) as (y & Hy & Hxy).
  destruct (H23 a y Hy) as (z & Hz & Hyz). eauto.
Qed.

Lemma stamps_kept_refl (σ : store) : stamps_kept σ σ.
Proof. split; [lia|]. intros a x Hx. exists x. split; [done|lia]. Qed.

Lemma stamps_kept_trans (σ1 σ2 σ3 : store) :
  stamps_kept σ1 σ2 → stamps_kept σ2 σ3 → stamps_kept σ1 σ3.
Proof.
  intros [Hc12 H12] [Hc23 H23]. split; [lia|]. intros a x Hx.
  destruct (H12 a x Hx) as (y & Hy & Hxy).
  destruct (H23 a y Hy) as (z & Hz & Hyz). exists z. split; [done|lia].
Qed.

Lemma raised_error_flags_kept (σ σ' : store) :
  raised_error σ σ' → flags_kept σ σ'.
Proof.
  intros [_ Hr] b x Hx. destruct (Hr b) as [Hsame|(y & Hy & _ & Hy')].
  - exists x. split; [congruence|done].
  - assert (y = x) as -> by congruence.
    exists (or_flag error_flag_e x). split; [done|].
    intros G. apply get_flag_or_flag_mono.
Qed.

Lemma raised_error_stamps (σ σ' : store) :
  raised_error σ σ' →
  (∀ b, stamp_of σ' b = stamp_of σ b) ∧ stamps_kept σ σ' ∧
  (stamps_bounded σ → stamps_bounded σ').
Proof.
  intros [Hc Hr].
  assert (Hst : ∀ b, stamp_of σ' b = stamp_of σ b).
  { intros b. unfold stamp_of. destruct (Hr b) as [->|(y & -> & _ & ->)]; done. }
  split_and!; [done| |].
  - split; [lia|]. intros b x Hx. specialize (Hst b). unfold stamp_of in Hst.
    rewrite Hx in Hst. destruct (nodes σ' !! b) as [x'|]; [|done].
    exists x'. split; [done|]. simpl in Hst. injection Hst as ->. lia.
  - intros Hb b x' Hx'. specialize (Hst b). unfold stamp_of in Hst.
    rewrite Hx' in Hst. destruct (nodes σ !! b) as [x|] eqn:Hx; [|done].
    simpl in Hst. injection Hst as ->. rewrite Hc. by apply (Hb b).
Qed.

Lemma set_flag_primary_kept F f a (σ σ' : store) :
  set_flag_primary F f a σ = Ok σ' →
  flags_kept σ σ' ∧ (stamps_bounded σ → stamps_bounded σ' ∧ stamps_kept σ σ').
Proof.
  unfold set_flag_primary. destruct (nodes σ !! a) as [x|] eqn:Hx; [|done].
  assert (Hrefl : flags_kept σ σ ∧ (stamps_bounded σ → stamps_bounded σ ∧ stamps_kept σ σ))
    by (split; [apply flags_kept_refl|split; [done|apply stamps_kept_refl]]).
  destruct (get_flag F x) eqn:Hoff; destruct f; try done; try by intros [= <-].
  intros [= <-]. split.
  - intros b y Hy. rewrite lookup_on_changed_write. case_decide as Hab.
    + subst b. assert (y = x) as -> by congruence.
      eexists. split; [done|]. intros G HG.
      by apply (get_flag_or_flag_mono F) in HG.
    + eauto.
  - intros Hb. split.
    + intros b y. rewrite lookup_on_changed_write. case_decide as Hab.
      * intros [= <-]. simpl. lia.
      * apply Hb.
    + split; [simpl; lia|]. intros b y Hy.
      rewrite lookup_on_changed_write. case_decide as Hab.
      * subst b. assert (y = x) as -> by congruence.
        eexists. split; [done|]. simpl. by apply (Hb a).
      * exists y. split; [done|lia].
Qed.

Lemma set_flag_error_eq f a σ :
  set_flag should_proxy error_flag_e f a σ =
    set_flag_error should_proxy (S (size (nodes σ))) f a σ.
Proof. done. Qed.

Lemma set_flag_primary_case F f a σ :
  F ≠ error_flag_e →
  set_flag should_proxy F f a σ = Some (set_flag_primary F f a σ).
Proof. by destruct F. Qed.

Lemma set_flag_kept F f a σ σ' :
  set_flag should_proxy F f a σ = Some (Ok σ') →
  flags_kept σ σ' ∧ (stamps_bounded σ → stamps_bounded σ' ∧ stamps_kept σ σ').
Proof.
  destruct (decide (F = error_flag_e)) as [->|HF].
  2:{ rewrite set_flag_primary_case by done.
      intros [= H]. by apply set_flag_primary_kept in H. }
  rewrite set_flag_error_eq.
  intros Hr%set_flag_error_raised. split.
  - by apply raised_error_flags_kept.
  - intros Hb. destruct (raised_error_stamps _ _ Hr) as (_ & ? & ?). auto.
Qed.

Lemma exec_kept o σ σ' :
  exec should_proxy o σ = Some (Ok σ') →
  flags_kept σ σ' ∧ (stamps_bounded σ → stamps_bounded σ' ∧ stamps_kept σ σ').
Proof.
  destruct o as [F f a|]; simpl; [apply set_flag_kept|].
  intros [= <-]. split; [intros a x Hx; by exists x|]. intros Hb. split.
  - intros a x Hx. simpl. specialize (Hb a x Hx). lia.
  - split; [simpl; lia|]. intros a x Hx. exists x. split; [done|lia].
Qed.

Lemma exec_all_kept os σ σ' :
  exec_all should_proxy os σ = Some (Ok σ') →
  flags_kept σ σ' ∧ (stamps_bounded σ → stamps_bounded σ' ∧ stamps_kept σ σ').
Proof.
  revert σ. induction os as [|o os IH]; intros σ; simpl.
  - intros [= <-]. split; [apply flags_kept_refl|].
    intros Hb. split; [done|apply stamps_kept_refl].
  - destruct (exec should_proxy o σ) as [[σ1| |]|] eqn:Ho; try done.
    intros [Hf Hs]%IH. destruct (exec_kept _ _ _ Ho) as [Hf1 Hs1]. split.
    + by eapply flags_kept_trans.
    + intros Hb. destruct (Hs1 Hb) as [Hb1 Hk1]. destruct (Hs Hb1) as [Hb2 Hk2].
      split; [done|by eapply stamps_kept_trans].
Qed.

(** Every run of operations answers. *)
Lemma exec_all_total os σ : ∃ r, exec_all should_proxy os σ = Some r.
Proof.
  revert σ. induction os as [|o os IH]; intros σ; simpl; [eauto|].
  assert (∃ r, exec should_proxy o σ = Some r) as [r ->].
  { destruct o; simpl; [apply set_flag_total|eauto]. }
  destruct r; eauto.
Qed.

Lemma store_eq (σ σ' : store) :
  current_generation_ σ' = current_generation_ σ →
  (∀ b, nodes σ' !! b = nodes σ !! b) → σ' = σ.
Proof.
  destruct σ, σ'; simpl. intros -> Hn. f_equal. by apply map_eq.
Qed.

Lemma set_flag_error_sets fuel a σ σ' :
  set_flag_error should_proxy fuel true a σ = Some (Ok σ') →
  ∃ y, nodes σ' !! a = Some y ∧ get_flag error_flag_e y = true.
Proof.
  intros Hrun.
  assert (Hkeep : ∀ σ0 y, raised_error σ0 σ' → nodes σ0 !! a = Some y →
            get_flag error_flag_e y = true →
            ∃ y', nodes σ' !! a = Some y' ∧ get_flag error_flag_e y' = true).
  { intros σ0 y Hr%raised_error_flags_kept Hy Hon.
    destruct (Hr a y Hy) as (y' & ? & ?). eauto. }
  destruct fuel as [|fuel]; simpl in Hrun; [done|].
  destruct (nodes σ !! a) as [x|] eqn:Hx; [|done].
  destruct (get_flag error_flag_e x) eqn:Hoff; simpl in Hrun.
  { injection Hrun as <-. eauto. }
  set (σ1 := write_node a (or_flag error_flag_e x) σ) in *.
  apply (Hkeep σ1 (or_flag error_flag_e x)).
  - destruct (parent_ x) as [p|].
    + destruct (should_proxy σ1 a).
      * by eapply set_flag_error_raised.
      * injection Hrun as <-. split; [done|by left].
    + injection Hrun as <-. split; [done|by left].
  - unfold σ1, write_node; simpl. apply lookup_insert_eq.
  - apply get_flag_or_flag_same.
Qed.

(** *** The stated properties of flags and stamps *)

(** C3: once the write, read or or_false flag of a node is set, asking to
    clear it is fatal, and after every run of operations that ends the flag
    is still set. *)
Theorem flags_monotone F a x os σ σ' :
  F ≠ error_flag_e →
  nodes σ !! a = Some x → get_flag F x = true →
  set_flag should_proxy F false a σ = Some Fatal ∧
  (exec_all should_proxy os σ = Some (Ok σ') →
   ∃ x', nodes σ' !! a = Some x' ∧ get_flag F x' = true).
Proof.
  intros HF Hx Hon. split; [by eapply set_flag_clear_fatal|].
  intros [Hk _]%exec_all_kept. destruct (Hk a x Hx) as (x' & ? & ?). eauto.
Qed.

(** C4, as the code has it: no setter moves a stamp back; a write, read or
    or_false setter that sets an unset flag changes the flags and moves the
    stamp of the node to the current generation; the error setter never
    moves a stamp, whatever it does to the flags; a setter that finds the
    flag set or is asked for false changes nothing; and a setter that leaves
    all flags as they were leaves the store as it was. *)
Theorem stamp_follows_flags F f a x σ σ' :
  stamps_bounded σ → nodes σ !! a = Some x →
  set_flag should_proxy F f a σ = Some (Ok σ') →
  stamps_bounded σ' ∧ stamps_kept σ σ' ∧
  (F ≠ error_flag_e → get_flag F x = false → f = true →
     flags_of σ' a ≠ flags_of σ a ∧
     stamp_of σ' a = Some (current_generation_ σ)) ∧
  (F = error_flag_e → ∀ b, stamp_of σ' b = stamp_of σ b) ∧
  (get_flag F x = true ∨ f = false → σ' = σ) ∧
  ((∀ b, flags_of σ' b = flags_of σ b) → σ' = σ).
Proof.
  intros Hb Hx Hrun.
  destruct (set_flag_kept _ _ _ _ _ Hrun) as [_ Hs]. destruct (Hs Hb) as [Hb' Hk].
  split_and!; try done.
  - intros HF Hoff ->.
    assert (Hrun' : set_flag_primary F true a σ = Ok σ')
      by (rewrite set_flag_primary_case in Hrun by done; congruence).
    rewrite (set_flag_primary_eq _ _ _ _ x Hx), Hoff in Hrun'. injection Hrun' as <-.
    unfold flags_of, stamp_of. rewrite lookup_on_changed_write, decide_True, Hx by done.
    split; [|done]. simpl. intros [= Heq]. by apply (or_flag_changes F x).
  - intros ->. rewrite set_flag_error_eq in Hrun.
    apply set_flag_error_raised in Hrun.
    by destruct (raised_error_stamps _ _ Hrun).
  - intros Hcase. destruct (decide (F = error_flag_e)) as [->|HF].
    + rewrite set_flag_error_eq in Hrun. simpl in Hrun. rewrite Hx in Hrun.
      destruct f; [|congruence]. destruct Hcase as [Hon|?]; [|done].
      rewrite Hon in Hrun. simpl in Hrun. congruence.
    + assert (Hrun' : set_flag_primary F f a σ = Ok σ')
        by (rewrite set_flag_primary_case in Hrun by done; congruence).
      rewrite (set_flag_primary_eq _ _ _ _ x Hx) in Hrun'.
      destruct Hcase as [Hon| ->].
      * rewrite Hon in Hrun'. destruct f; congruence.
      * destruct (get_flag F x); congruence.
  - intros Hsame. destruct (decide (F = error_flag_e)) as [->|HF].
    + rewrite set_flag_error_eq in Hrun.
      apply set_flag_error_raised in Hrun. destruct Hrun as [Hc Hr].
      apply store_eq; [done|]. intros b.
      destruct (Hr b) as [?|(y & Hy & Hoff & Hy')]; [done|].
      specialize (Hsame b). unfold flags_of in Hsame. rewrite Hy, Hy' in Hsame.
      injection Hsame as Heq. by destruct (or_flag_changes error_flag_e y).
    + assert (Hrun' : set_flag_primary F f a σ = Ok σ')
        by (rewrite set_flag_primary_case in Hrun by done; congruence).
      rewrite (set_flag_primary_eq _ _ _ _ x Hx) in Hrun'.
      destruct (get_flag F x) eqn:Hoff; destruct f; try congruence.
      injection Hrun' as <-. specialize (Hsame a). unfold flags_of in Hsame.
      rewrite lookup_on_changed_write, decide_True, Hx in Hsame by done.
      injection Hsame as Heq. by destruct (or_flag_changes F x).
Qed.

(** C7: setting the unset error flag of a node sets the flag of the node; it
    sets the flag of the parent when there is a parent and the predicate
    holds; otherwise it writes the flag of the node and touches no other
    node. *)
Theorem error_flag_proxy a x σ :
  parents_alive σ → nodes σ !! a = Some x →
  get_flag error_flag_e x = false →
  ∃ σ',
    set_flag should_proxy error_flag_e true a σ = Some (Ok σ') ∧
    (∃ x', nodes σ' !! a = Some x' ∧ get_flag error_flag_e x' = true) ∧
    (∀ p, parent_ x = Some p →
       should_proxy (write_node a (or_flag error_flag_e x) σ) a = true →
       ∃ y, nodes σ' !! p = Some y ∧ get_flag error_flag_e y = true) ∧
    (parent_ x = None ∨
     should_proxy (write_node a (or_flag error_flag_e x) σ) a = false →
       σ' = write_node a (or_flag error_flag_e x) σ ∧
       ∀ b, b ≠ a → nodes σ' !! b = nodes σ !! b).
Proof.
  intros Hpa Hx Hoff.
  destruct (set_flag_error_ok (S (size (nodes σ))) a σ Hpa)
    as [σ' Hrun]; [eauto|apply error_unset_size|].
  exists σ'. split; [done|].
  split; [by eapply set_flag_error_sets|].
  simpl in Hrun. rewrite Hx, Hoff in Hrun. simpl in Hrun.
  set (σ1 := write_node a (or_flag error_flag_e x) σ) in *.
  split.
  - intros p Hp Hproxy. rewrite Hp, Hproxy in Hrun.
    by eapply set_flag_error_sets.
  - intros Hcase.
    assert (σ' = σ1) as ->.
    { destruct (parent_ x) as [p|]; [|congruence].
      destruct Hcase as [?|Hno]; [done|]. rewrite Hno in Hrun. congruence. }
    split; [done|]. intros b Hne. unfold σ1, write_node; simpl.
    by rewrite lookup_insert_ne.
Qed.

(** C10: [set_error_flag(false)] returns with the store as it was, on every
    store and every node, whether its error flag is set or not: no flag is
    cleared, no stamp moves, no assertion fires.  The other three setters,
    asked for false on a set flag, are fatal. *)
Theorem set_error_flag_false_noop a σ :
  set_error_flag should_proxy false a σ = Some (Ok σ) ∧
  (∀ x, nodes σ !! a = Some x →
     (get_flag write_flag_e x = true →
        set_write_flag should_proxy false a σ = Some Fatal) ∧
     (get_flag read_flag_e x = true →
        set_read_flag should_proxy false a σ = Some Fatal) ∧
     (get_flag or_false_flag_e x = true →
        set_or_false_flag should_proxy false a σ = Some Fatal)).
Proof.
  split; [done|]. intros x Hx.
  split_and!; intros Hon; by apply (set_flag_clear_fatal _ _ _ x).
Qed.

End Facts.

(** *** Examples *)

Lemma written_ops_run : exec_all always written_ops written = Some (Ok written_after).
Proof. vm_compute. reflexivity. Qed.

Lemma family_stamps_bounded : stamps_bounded family.
Proof.
  intros a x. unfold family; simpl.
  intros [[<- <-]|[_ [[<- <-]|[_ H]]%lookup_insert_Some]]%lookup_insert_Some;
    simpl; try lia.
  by rewrite lookup_empty in H.
Qed.

Lemma family_parents_alive : parents_alive family.
Proof.
  intros a x p. unfold family; simpl.
  intros [[<- <-]|[_ [[<- <-]|[_ H]]%lookup_insert_Some]]%lookup_insert_Some;
    simpl; try done.
  intros [= <-]. by eexists.
Qed.

(** An example: the write flag survives a run of setters, and clearing
    it is fatal. *)
Lemma flags_monotone_witness :
  set_flag always write_flag_e false 0 written = Some Fatal ∧
  (exec_all always written_ops written = Some (Ok written_after) →
   ∃ x', nodes written_after !! 0%nat = Some x' ∧ get_flag write_flag_e x' = true).
Proof.
  apply (flags_monotone always write_flag_e 0%nat (leaf 1 0 None)
           written_ops written written_after); [done|by vm_compute|done].
Defined.

(** An example: the read setter stamps the child. *)
Lemma stamp_follows_flags_witness :
  let σ' := Store (<[0%nat := Node tt tt 0 0 None (Some 1%nat) []]>
                     (<[1%nat := leaf 2 1 (Some 0%nat)]> ∅)) 1 in
  stamps_bounded σ' ∧ stamps_kept family σ' ∧
  (read_flag_e ≠ error_flag_e →
   get_flag read_flag_e (leaf 0 0 (Some 0%nat)) = false → true = true →
     flags_of σ' 1 ≠ flags_of family 1 ∧
     stamp_of σ' 1 = Some (current_generation_ family)) ∧
  (read_flag_e = error_flag_e → ∀ b, stamp_of σ' b = stamp_of family b) ∧
  (get_flag read_flag_e (leaf 0 0 (Some 0%nat)) = true ∨ true = false → σ' = family) ∧
  ((∀ b, flags_of σ' b = flags_of family b) → σ' = family).
Proof.
  apply (stamp_follows_flags always read_flag_e true 1%nat (leaf 0 0 (Some 0%nat)));
    [apply family_stamps_bounded|by vm_compute|vm_compute; reflexivity].
Defined.

(** A change without a stamp: setting the error flag on the child changes
    the flags of the child and of its parent, and both stamps stay at 0 while
    the current generation is 1. *)
Lemma error_flag_leaves_stamp :
  ∃ σ',
    set_flag always error_flag_e true 1 family = Some (Ok σ') ∧
    flags_of family 1 = Some 0 ∧ flags_of σ' 1 = Some 8 ∧
    flags_of family 0 = Some 0 ∧ flags_of σ' 0 = Some 8 ∧
    stamp_of σ' 1 = Some 0 ∧ stamp_of σ' 0 = Some 0 ∧
    current_generation_ family = 1.
Proof.
  eexists. split; [vm_compute; reflexivity|]. by vm_compute.
Qed.

(** An example: with a predicate that holds, the parent gets the flag. *)
Lemma error_flag_proxy_witness :
  ∃ σ',
    set_flag always error_flag_e true 1 family = Some (Ok σ') ∧
    (∃ x', nodes σ' !! 1%nat = Some x' ∧ get_flag error_flag_e x' = true) ∧
    (∀ p, Some 0%nat = Some p →
       always (write_node 1 (or_flag error_flag_e (leaf 0 0 (Some 0%nat))) family) 1
         = true →
       ∃ y, nodes σ' !! p = Some y ∧ get_flag error_flag_e y = true) ∧
    (Some 0%nat = None ∨
     always (write_node 1 (or_flag error_flag_e (leaf 0 0 (Some 0%nat))) family) 1
       = false →
       σ' = write_node 1 (or_flag error_flag_e (leaf 0 0 (Some 0%nat))) family ∧
       ∀ b, b ≠ 1%nat → nodes σ' !! b = nodes family !! b).
Proof.
  apply (error_flag_proxy always 1%nat (leaf 0 0 (Some 0%nat)) family);
    [apply family_parents_alive|by vm_compute|done].
Defined.

(** With a predicate that does not hold, the parent keeps its flags. *)
Lemma error_flag_not_proxied :
  set_flag never error_flag_e true 1 family
    = Some (Ok (write_node 1 (leaf 8 0 (Some 0%nat)) family)).
Proof. vm_compute. reflexivity. Qed.

End TypeDataFacts.

(** ** Races on the interner *)
Module RaceFacts.

Import Key Race.

Section Facts.

Variable hash_ll : string → Z.

(** A thread that runs alone does what the sequential function does. *)
Lemma alone_is_sequential r st :
  interleave hash_ll [0%nat; 0%nat] [Calling r] st =
    match serve hash_ll r st with
    | Ok (k, st') => ([Returned k], st')
    | _ => ([Aborted], st)
    end.
Proof.
  destruct r as [i|s]; simpl.
  - unfold int_key. by destruct (int_keys_ht st !! to_uint i).
  - unfold string_key. destruct (string_keys_ht st !! hash_ll s); simpl; [done|].
    by destruct (string_key_create hash_ll s st) as [[k st']| |].
Qed.

(** Any number of threads that race on [int_key(i)]: under every schedule,
    whoever has returned holds the key of [i]. *)
Lemma int_key_race_converges i schedule ths st ths' st' :
  wf hash_ll st → Forall (asking_int i) ths →
  interleave hash_ll schedule ths st = (ths', st') →
  wf hash_ll st' ∧ Forall (asking_int i) ths'.
Proof.
  revert ths st. induction schedule as [|n schedule IH]; intros ths st Hwf Hths; simpl.
  { by intros [= <- <-]. }
  destruct (ths !! n) as [th|] eqn:Hth; [|by apply IH].
  assert (Hask : asking_int i th) by (eapply Forall_lookup_1; eauto).
  destruct (step hash_ll th st) as [th1 st1] eqn:Hstep.
  assert (wf hash_ll st1 ∧ asking_int i th1) as [Hwf1 Hask1].
  { destruct Hask as [->|[->| ->]]; simpl in Hstep.
    - destruct (int_keys_ht st !! to_uint i) as [k|] eqn:Hk;
        injection Hstep as <- <-; (split; [done|]).
      + right; right. f_equal. destruct k as [n0].
        destruct (wf_int_keys _ _ Hwf _ _ Hk) as [_ Hid]. simpl in Hid.
        unfold the_int_key. by rewrite Hid, to_int_to_uint.
      + right; by left.
    - injection Hstep as <- <-. split; [|by right; right].
      by apply (KeyFacts.int_key_create_wf hash_ll i st).
    - injection Hstep as <- <-. split; [done|by right; right]. }
  apply IH; [done|]. by apply Forall_insert.
Qed.

(** C9 at the failing schedule: two threads ask for the same string on the
    empty tables, both look the node up before either creates; the first
    returns the key of id 2 and the second the key of id 4. *)
Theorem string_key_race_diverges s :
  (interleave hash_ll [0; 1; 0; 1]%nat
     [Calling (StringKey s); Calling (StringKey s)] init).1
    = [Returned (Build 2); Returned (Build 4)].
Proof.
  simpl. rewrite lookup_empty. simpl. rewrite lookup_empty. simpl.
  unfold string_key_create; simpl.
  change (to_int 2) with 2. change (to_int (0 + 1)) with 1.
  rewrite lookup_empty. simpl.
  change (to_int 4) with 4.
  rewrite lookup_insert_ne by done. rewrite lookup_empty. done.
Qed.

(** After that race the cache answers with the key of id 4, which is not the
    key the first thread holds. *)
Lemma string_key_after_race s :
  ∃ st, (interleave hash_ll [0; 1; 0; 1]%nat
           [Calling (StringKey s); Calling (StringKey s)] init).2 = st ∧
        string_key hash_ll s st = Ok (Build 4, st).
Proof.
  eexists. split; [done|].
  simpl. rewrite lookup_empty. simpl. rewrite lookup_empty. simpl.
  unfold string_key_create; simpl.
  change (to_int 2) with 2. change (to_int (0 + 1)) with 1.
  rewrite lookup_empty. simpl.
  change (to_int 4) with 4.
  rewrite lookup_insert_ne by done. rewrite lookup_empty. simpl.
  unfold string_key; simpl. by rewrite lookup_insert_eq.
Qed.

End Facts.

(** Three threads race on [int_key(7)] from the empty tables. *)
Lemma int_key_race_converges_witness :
  wf sample_hash
     (interleave sample_hash [0; 1; 2; 1; 0; 2]%nat
        [Calling (IntKey 7); Calling (IntKey 7); Calling (IntKey 7)] init).2 ∧
  Forall (asking_int 7)
     (interleave sample_hash [0; 1; 2; 1; 0; 2]%nat
        [Calling (IntKey 7); Calling (IntKey 7); Calling (IntKey 7)] init).1.
Proof.
  apply (int_key_race_converges sample_hash 7 [0; 1; 2; 1; 0; 2]%nat
           [Calling (IntKey 7); Calling (IntKey 7); Calling (IntKey 7)] init).
  - apply KeyFacts.wf_init.
  - repeat constructor; by left.
  - apply surjective_pairing.
Defined.

(** In that race all three threads return the key of id 15. *)
Lemma int_key_race_example :
  (interleave sample_hash [0; 1; 2; 1; 0; 2]%nat
     [Calling (IntKey 7); Calling (IntKey 7); Calling (IntKey 7)] init).1
    = [Returned (Build 15); Returned (Build 15); Returned (Build 15)].
Proof. vm_compute. reflexivity. Qed.

End RaceFacts.

(** ** The lattice join *)
Module LatticeFacts.

Import Lattice.

Section Facts.

Context {PrimitiveType ClassPtr : Type}.
Context `{!EqDecision PrimitiveType, !EqDecision ClassPtr}.

Abbreviation tree := (Lattice.t PrimitiveType ClassPtr).

Variable type_lca : PrimitiveType → PrimitiveType → PrimitiveType.
Variable class_lca : ClassPtr → ClassPtr → ClassPtr.

(** What makes the two tables joins: idempotence and commutativity. *)
Hypothesis type_lca_idem : ∀ p, type_lca p p = p.
Hypothesis type_lca_comm : ∀ p q, type_lca p q = type_lca q p.
Hypothesis class_lca_idem : ∀ c, class_lca c c = c.
Hypothesis class_lca_comm : ∀ c d, class_lca c d = class_lca d c.

(** Induction on a value with the children in reach. *)
Lemma tree_ind (P : tree → Prop) :
  (∀ p c f g any subs,
     (∀ x, any = Some x → P x) → Forall (λ kv, P kv.2) subs →
     P (Node p c f g any subs)) →
  ∀ x, P x.
Proof.
  intros Hnode. fix IH 1. intros [p c f g any subs]. apply Hnode.
  - destruct any as [y|]; intros x [= <-]. apply IH.
  - induction subs as [|[k v] subs IHsubs]; constructor; [apply IH|apply IHsubs].
Qed.

(** *** Unfolding *)

Local Arguments join_subkeys : simpl never.
Local Arguments set_lca : simpl never.

Lemma join_subkeys_nil_l (j : tree → tree → tree * bool) lb :
  join_subkeys j [] lb = (prod_map id clone <$> lb, negb (bool_decide (lb = []))).
Proof. done. Qed.

Lemma join_subkeys_nil_r (j : tree → tree → tree * bool) la :
  join_subkeys j la [] = (la, false).
Proof. by destruct la as [|[ka va] la]. Qed.

Lemma join_subkeys_cons (j : tree → tree → tree * bool) ka va la kb vb lb :
  join_subkeys j ((ka, va) :: la) ((kb, vb) :: lb) =
    match Key.id ka ?= Key.id kb with
    | Lt => let '(l, c) := join_subkeys j la ((kb, vb) :: lb) in ((ka, va) :: l, c)
    | Gt => let '(l, _) := join_subkeys j ((ka, va) :: la) lb in
            ((kb, clone vb) :: l, true)
    | Eq =>
        let '(v, c1) := j va vb in
        let '(l, c2) := join_subkeys j la lb in
        ((ka, v) :: l, c1 || c2)
    end.
Proof. done. Qed.

Lemma set_lca_eq cur sof p c f g any subs (rhs : tree) :
  set_lca type_lca class_lca cur sof (Node p c f g any subs) rhs =
    let p' := type_lca p (ptype rhs) in
    let c' := class_lca c (class_type rhs) in
    let f' := join_flags sof f (flags rhs) in
    let '(any', c_any) :=
      match any, anykey_value rhs with
      | Some l, Some r =>
          let '(l', ch) := set_lca type_lca class_lca cur sof l r in (Some l', ch)
      | Some l, None => (Some l, false)
      | None, Some r => (Some (clone r), true)
      | None, None => (None, false)
      end in
    let '(subs', c_subs) :=
      join_subkeys (set_lca type_lca class_lca cur sof) subs (subkeys_values rhs) in
    let changed :=
      negb (bool_decide (p' = p)) || negb (bool_decide (c' = c))
      || negb (f' =? f) || c_any || c_subs in
    (Node p' c' f' (if changed then cur else g) any' subs', changed).
Proof. done. Qed.

(** *** Keys of a join *)

Lemma key_eq_of_compare (ka kb : Key.t) : (Key.id ka ?= Key.id kb) = Eq → ka = kb.
Proof. destruct ka, kb; simpl. by intros ->%Z.compare_eq. Qed.

Lemma clone_list_keys (l : list (Key.t * tree)) : (prod_map id clone <$> l).*1 = l.*1.
Proof. rewrite <- list_fmap_compose. apply list_fmap_ext. by intros i [k v] _. Qed.

(** The keys of a join are the keys of either side. *)
Lemma join_subkeys_keys (j : tree → tree → tree * bool) la lb k :
  k ∈ (join_subkeys j la lb).1.*1 ↔ k ∈ la.*1 ∨ k ∈ lb.*1.
Proof.
  revert lb. induction la as [|[ka va] la IHla]; intros lb.
  { rewrite join_subkeys_nil_l. csimpl. rewrite clone_list_keys, elem_of_nil. tauto. }
  induction lb as [|[kb vb] lb IHlb].
  { rewrite join_subkeys_nil_r. csimpl. rewrite elem_of_nil. tauto. }
  rewrite join_subkeys_cons.
  destruct (Key.id ka ?= Key.id kb) eqn:Hcmp.
  - apply key_eq_of_compare in Hcmp as ->. specialize (IHla lb).
    destruct (j va vb) as [v c1], (join_subkeys j la lb) as [l c2].
    csimpl in *. rewrite !elem_of_cons, IHla. tauto.
  - specialize (IHla ((kb, vb) :: lb)).
    destruct (join_subkeys j la ((kb, vb) :: lb)) as [l c].
    csimpl in *. rewrite !elem_of_cons, IHla, elem_of_cons. tauto.
  - destruct (join_subkeys j ((ka, va) :: la) lb) as [l c].
    csimpl in *. rewrite !elem_of_cons, IHlb, elem_of_cons. tauto.
Qed.

(** The join of two key-ordered collections is key-ordered. *)
Lemma join_subkeys_ordered (j : tree → tree → tree * bool) la lb :
  key_ordered la → key_ordered lb → key_ordered (join_subkeys j la lb).1.
Proof.
  unfold key_ordered. revert lb.
  induction la as [|[ka va] la IHla]; intros lb Hla Hlb.
  { rewrite join_subkeys_nil_l. csimpl. by rewrite clone_list_keys. }
  induction lb as [|[kb vb] lb IHlb].
  { by rewrite join_subkeys_nil_r. }
  csimpl in Hla. csimpl in Hlb.
  apply StronglySorted_inv in Hla as [Hla Hka].
  apply StronglySorted_inv in Hlb as [Hlb Hkb].
  rewrite Forall_forall in Hka, Hkb.
  rewrite join_subkeys_cons.
  destruct (Key.id ka ?= Key.id kb) eqn:Hcmp.
  - apply key_eq_of_compare in Hcmp as ->.
    pose proof (join_subkeys_keys j la lb) as Hkeys. specialize (IHla lb Hla Hlb).
    destruct (j va vb) as [v c1], (join_subkeys j la lb) as [l c2].
    csimpl in *. apply SSorted_cons; [done|].
    apply Forall_forall. intros k [?|?]%Hkeys; auto.
  - apply Z.compare_lt_iff in Hcmp.
    pose proof (join_subkeys_keys j la ((kb, vb) :: lb)) as Hkeys.
    assert (Hlb' : StronglySorted key_lt ((kb, vb) :: lb).*1).
    { csimpl. apply SSorted_cons; [done|by apply Forall_forall]. }
    specialize (IHla ((kb, vb) :: lb) Hla Hlb').
    destruct (join_subkeys j la ((kb, vb) :: lb)) as [l c].
    csimpl in *. apply SSorted_cons; [done|].
    apply Forall_forall. intros k [Hk|[->|Hk]%elem_of_cons]%Hkeys; [auto|done|].
    specialize (Hkb k Hk). unfold key_lt in *.
    change (Key.id ka < Key.id kb) in Hcmp. lia.
  - apply Z.compare_gt_iff in Hcmp.
    pose proof (join_subkeys_keys j ((ka, va) :: la) lb) as Hkeys.
    assert (Hla' : StronglySorted key_lt ((ka, va) :: la).*1).
    { csimpl. apply SSorted_cons; [done|by apply Forall_forall]. }
    specialize (IHlb Hlb).
    destruct (join_subkeys j ((ka, va) :: la) lb) as [l c].
    csimpl in *. apply SSorted_cons; [done|].
    apply Forall_forall. intros k [[->|Hk]%elem_of_cons|Hk]%Hkeys; [done| |auto].
    specialize (Hka k Hk). unfold key_lt in *.
    change (Key.id kb < Key.id ka) in Hcmp. lia.
Qed.

(** *** Flags *)

Lemma join_flags_idem sof f : join_flags sof f f = f.
Proof.
  unfold join_flags. destruct sof; [apply Z.lor_diag|].
  apply Z.bits_inj'. intros n Hn.
  rewrite Z.lor_spec, Z.ldiff_spec. by destruct (Z.testbit f n).
Qed.

Lemma join_flags_comm f g : join_flags true f g = join_flags true g f.
Proof. apply Z.lor_comm. Qed.

(** *** Idempotence *)

Lemma join_subkeys_self (j : tree → tree → tree * bool) l :
  Forall (λ kv, j kv.2 kv.2 = (kv.2, false)) l →
  join_subkeys j l l = (l, false).
Proof.
  induction 1 as [|[k v] l Hv _ IH]; [done|].
  rewrite join_subkeys_cons, Z.compare_refl. simpl in Hv. by rewrite Hv, IH.
Qed.

Lemma set_lca_self cur sof (x : tree) :
  set_lca type_lca class_lca cur sof x x = (x, false).
Proof.
  induction x as [p c f g any subs IHany IHsubs] using tree_ind.
  rewrite set_lca_eq. simpl.
  rewrite type_lca_idem, class_lca_idem, join_flags_idem.
  rewrite join_subkeys_self by done.
  rewrite !bool_decide_eq_true_2 by done. rewrite Z.eqb_refl. simpl.
  destruct any as [l|]; [|done]. by rewrite (IHany l).
Qed.

(** *** Commutativity of the structure *)

Lemma structure_clone_list (l : list (Key.t * tree)) :
  prod_map id structure <$> (prod_map id clone <$> l) = prod_map id structure <$> l.
Proof.
  rewrite <- list_fmap_compose. apply list_fmap_ext. by intros i [k v] _.
Qed.

Lemma join_subkeys_comm (j1 j2 : tree → tree → tree * bool) la lb :
  Forall (λ kv, ∀ y, structure (j1 kv.2 y).1 = structure (j2 y kv.2).1) la →
  prod_map id structure <$> (join_subkeys j1 la lb).1
    = prod_map id structure <$> (join_subkeys j2 lb la).1.
Proof.
  intros Hla. revert lb.
  induction Hla as [|[ka va] la Hva _ IHla]; intros lb.
  { rewrite join_subkeys_nil_l, join_subkeys_nil_r. apply structure_clone_list. }
  induction lb as [|[kb vb] lb IHlb].
  { rewrite join_subkeys_nil_l, join_subkeys_nil_r. simpl.
    by rewrite structure_clone_list. }
  rewrite !join_subkeys_cons, (Z.compare_antisym (Key.id ka) (Key.id kb)).
  destruct (Key.id ka ?= Key.id kb) eqn:Hcmp; simpl.
  - apply key_eq_of_compare in Hcmp as ->.
    specialize (IHla lb). specialize (Hva vb). simpl in Hva.
    destruct (j1 va vb) as [v1 c1], (j2 vb va) as [v2 c2].
    destruct (join_subkeys j1 la lb) as [l1 d1], (join_subkeys j2 lb la) as [l2 d2].
    simpl in *. rewrite Hva. f_equal. exact IHla.
  - specialize (IHla ((kb, vb) :: lb)).
    destruct (join_subkeys j1 la ((kb, vb) :: lb)) as [l1 d1].
    destruct (join_subkeys j2 ((kb, vb) :: lb) la) as [l2 d2].
    simpl in *. f_equal. exact IHla.
  - destruct (join_subkeys j1 ((ka, va) :: la) lb) as [l1 d1].
    destruct (join_subkeys j2 lb ((ka, va) :: la)) as [l2 d2].
    simpl in *. f_equal. exact IHlb.
Qed.

Lemma set_lca_comm cur cur' (a b : tree) :
  structure (set_lca type_lca class_lca cur true a b).1
    = structure (set_lca type_lca class_lca cur' true b a).1.
Proof.
  revert b. induction a as [p c f g any subs IHany IHsubs] using tree_ind.
  intros [q d h g' any' subs']. rewrite !set_lca_eq. simpl.
  pose proof (join_subkeys_comm
                (set_lca type_lca class_lca cur true)
                (set_lca type_lca class_lca cur' true) subs subs') as Hsubs.
  destruct (join_subkeys (set_lca type_lca class_lca cur true) subs subs')
    as [l1 d1].
  destruct (join_subkeys (set_lca type_lca class_lca cur' true) subs' subs)
    as [l2 d2].
  simpl in Hsubs. rewrite (type_lca_comm q p), (class_lca_comm d c).
  rewrite (join_flags_comm h f).
  assert (Hany :
    structure <$>
      (match any, any' with
       | Some l, Some r =>
           let '(l', ch) := set_lca type_lca class_lca cur true l r in (Some l', ch)
       | Some l, None => (Some l, false)
       | None, Some r => (Some (clone r), true)
       | None, None => (None, false)
       end).1 =
    structure <$>
      (match any', any with
       | Some l, Some r =>
           let '(l', ch) := set_lca type_lca class_lca cur' true l r in (Some l', ch)
       | Some l, None => (Some l, false)
       | None, Some r => (Some (clone r), true)
       | None, None => (None, false)
       end).1).
  { destruct any as [l|], any' as [r|]; simpl; try done.
    specialize (IHany l eq_refl r).
    destruct (set_lca type_lca class_lca cur true l r) as [l1' ch1].
    destruct (set_lca type_lca class_lca cur' true r l) as [l2' ch2].
    simpl in *. by rewrite IHany. }
  destruct (match any, any' with
            | Some l, Some r => _ | Some l, None => _
            | None, Some r => _ | None, None => _ end) as [a1 e1].
  destruct (match any', any with
            | Some l, Some r => _ | Some l, None => _
            | None, Some r => _ | None, None => _ end) as [a2 e2].
  simpl in *. rewrite Hany, Hsubs; [done|].
  eapply Forall_impl; [apply IHsubs|]. intros [k v] Hv y. apply Hv.
Qed.

(** C5: on the join as the specification describes it, [x.set_lca(x)]
    returns [x] itself and reports no change, and [a.set_lca(b)] and
    [b.set_lca(a)] have the same structure (tag, class, flags, children at
    every depth), whatever the generations they ran in. *)
Theorem set_lca_idempotent_commutative cur cur' save_or_false (x a b : tree) :
  set_lca type_lca class_lca cur save_or_false x x = (x, false) ∧
  structure (set_lca type_lca class_lca cur true a b).1
    = structure (set_lca type_lca class_lca cur' true b a).1.
Proof. split; [apply set_lca_self|apply set_lca_comm]. Qed.

End Facts.

(** *** Examples *)

Lemma sample_type_lca_idem p : sample_type_lca p p = p.
Proof. by destruct p. Qed.

Lemma sample_type_lca_comm p q : sample_type_lca p q = sample_type_lca q p.
Proof. by destruct p, q. Qed.

Lemma sample_class_lca_idem c : sample_class_lca c c = c.
Proof. unfold sample_class_lca. by case_decide. Qed.

Lemma sample_class_lca_comm c d : sample_class_lca c d = sample_class_lca d c.
Proof. unfold sample_class_lca. repeat case_decide; congruence. Qed.

(** An example: two arrays with different keys. *)
Lemma set_lca_idempotent_commutative_witness :
  set_lca sample_type_lca sample_class_lca 1 false array_a array_a
    = (array_a, false) ∧
  structure (set_lca sample_type_lca sample_class_lca 1 true array_a array_b).1
    = structure (set_lca sample_type_lca sample_class_lca 2 true array_b array_a).1.
Proof.
  apply (set_lca_idempotent_commutative sample_type_lca sample_class_lca
           sample_type_lca_idem sample_type_lca_comm
           sample_class_lca_idem sample_class_lca_comm).
Defined.

(** The join of the two arrays, computed: the keys of both sides in order,
    key 4 joined pointwise to the union tag, every changed node stamped. *)
Lemma set_lca_arrays :
  set_lca sample_type_lca sample_class_lca 7 true array_a array_b =
    (Node tp_array None 3 7 (Some int_leaf)
       [(Key.Build 1, int_leaf); (Key.Build 2, string_leaf);
        (Key.Build 4, Node tp_mixed None 4 7 None [])], true).
Proof. vm_compute. reflexivity. Qed.

(** The scenario of the specification: an integer leaf joined with a string
    leaf has the union tag and no error flag. *)
Lemma set_lca_int_string :
  ptype (set_lca sample_type_lca sample_class_lca 1 true int_leaf string_leaf).1
    = tp_mixed ∧
  Z.land (flags (set_lca sample_type_lca sample_class_lca 1 true
                   int_leaf string_leaf).1)
         (TypeData.flag_value TypeData.error_flag_e) = 0.
Proof. by vm_compute. Qed.

(** Without [save_or_false] the or_false flag of the right side is dropped,
    and the two orders of a join differ. *)
Lemma set_lca_without_or_false :
  flags (set_lca sample_type_lca sample_class_lca 1 false int_leaf string_leaf).1 = 0 ∧
  flags (set_lca sample_type_lca sample_class_lca 1 false string_leaf int_leaf).1 = 4.
Proof. by vm_compute. Qed.

End LatticeFacts.

(** ** More on the interner: which keys coincide, what the counter counts *)
Module KeyInvariants.

Import Key.

Section Facts.

Variable hash_ll : string → Z.

(** The locked part of [string_key] keeps the invariant whether or not the
    hash is cached, as long as the counter has room. *)
Lemma string_key_create_wf s st :
  wf hash_ll st → n_string_keys_ht st < max_string_keys →
  ∃ k st',
    string_key_create hash_ll s st = Ok (k, st') ∧ wf hash_ll st' ∧
    id k = n_string_keys_ht st * 2 + 2 ∧
    n_string_keys_ht st' = n_string_keys_ht st + 1 ∧
    string_keys_ht st' = <[hash_ll s := k]> (string_keys_ht st) ∧
    string_key_names_ht st' = <[id k := s]> (string_key_names_ht st) ∧
    string_key_names_ht st !! id k = None ∧
    int_keys_ht st' = int_keys_ht st.
Proof.
  intros [Hc Hi Hs Hn] Hroom. unfold max_string_keys in *.
  unfold string_key_create.
  assert (Hid : to_int (n_string_keys_ht st * 2 + 2) = n_string_keys_ht st * 2 + 2).
  { apply to_int_small. int_consts. lia. }
  assert (Hn1 : to_int (n_string_keys_ht st + 1) = n_string_keys_ht st + 1).
  { apply to_int_small. int_consts. lia. }
  simpl. rewrite Hid, Hn1.
  destruct (string_key_names_ht st !! (n_string_keys_ht st * 2 + 2))
    as [name|] eqn:Hname.
  { destruct (Hn _ _ Hname) as (j & Hj & Heq). exfalso. lia. }
  eexists _, _. split; [done|]. split_and!; simpl; try done.
  split; simpl; try done.
  - unfold max_string_keys. lia.
  - intros h k [[<- <-]|[Hne Hl']]%lookup_insert_Some; simpl.
    + exists (n_string_keys_ht st), s.
      split_and!; first [lia | done | apply lookup_insert_eq].
    + destruct (Hs _ _ Hl') as (j & name & Hj & Hidk & Hnm & Hh).
      exists j, name. split_and!; try first [lia | done].
      rewrite lookup_insert_ne; [done|]. rewrite Hidk. lia.
  - intros i name [[<- <-]|[Hne Hl']]%lookup_insert_Some.
    + exists (n_string_keys_ht st). lia.
    + destruct (Hn _ _ Hl') as (j & Hj & Heq). exists j. lia.
Qed.

(** Two wrapped ids agree exactly when the integers agree modulo 2^31. *)
Lemma to_int_odd_eq i j :
  to_int (i * 2 + 1) = to_int (j * 2 + 1) ↔ (i - j) mod 2 ^ 31 = 0.
Proof. unfold to_int. int_lia. Qed.

(** [int_key(i)] and [int_key(j)] are the same key exactly when [i] and [j]
    differ by a multiple of 2^31, at whatever times the two calls are made;
    on [-2^30, 2^30) different integers get different keys. *)
Theorem int_key_equal_iff st st' i j :
  wf hash_ll st → wf hash_ll st' →
  ((int_key i st).1 = (int_key j st').1 ↔ (i - j) mod 2 ^ 31 = 0) ∧
  (- 2 ^ 30 ≤ i < 2 ^ 30 → - 2 ^ 30 ≤ j < 2 ^ 30 →
   (int_key i st).1 = (int_key j st').1 → i = j).
Proof.
  intros Hwf Hwf'.
  destruct (KeyFacts.int_key_spec hash_ll i st Hwf) as (Hi & _).
  destruct (KeyFacts.int_key_spec hash_ll j st' Hwf') as (Hj & _).
  assert (Hiff : (int_key i st).1 = (int_key j st').1 ↔ (i - j) mod 2 ^ 31 = 0).
  { rewrite <- to_int_odd_eq, <- Hi, <- Hj.
    destruct (int_key i st).1, (int_key j st').1; simpl. split; congruence. }
  split; [done|]. intros Hri Hrj Heq%Hiff. revert Heq. int_lia.
Qed.

Lemma counted_init : counted init.
Proof. done. Qed.

Lemma serve_counted r st :
  wf hash_ll st → counted st → n_string_keys_ht st < max_string_keys →
  ∃ k st',
    serve hash_ll r st = Ok (k, st') ∧ wf hash_ll st' ∧ counted st' ∧
    n_string_keys_ht st' ≤ n_string_keys_ht st + 1 ∧
    dom (string_keys_ht st') =
      dom (string_keys_ht st) ∪ list_to_set (requested_hashes hash_ll [r]).
Proof.
  intros Hwf [Hc1 Hc2] Hroom. destruct r as [i|s]; simpl.
  - destruct (KeyFacts.int_key_spec hash_ll i st Hwf) as (_ & _ & Hs & Hn & Hcnt & Hwf').
    exists (int_key i st).1, (int_key i st).2.
    split; [by destruct (int_key i st)|].
    split_and!; [done| |lia|].
    + split; congruence.
    + rewrite Hs. set_solver.
  - unfold string_key.
    destruct (string_keys_ht st !! hash_ll s) as [k|] eqn:Hl.
    + exists k, st. split_and!; [done|done|done|lia|].
      apply (elem_of_dom_2 (D := gset Z)) in Hl. set_solver.
    + destruct (string_key_create_wf s st Hwf Hroom)
        as (k & st' & -> & Hwf' & Hid & Hn & Hs & Hnm & Hfree & _).
      exists k, st'. split_and!; [done|done| |lia|].
      * split.
        -- rewrite Hs, map_size_insert_None by done. lia.
        -- rewrite Hnm, map_size_insert_None by done. lia.
      * rewrite Hs, dom_insert_L. set_solver.
Qed.

Lemma run_counted rs st :
  wf hash_ll st → counted st →
  n_string_keys_ht st + Z.of_nat (length rs) ≤ max_string_keys →
  ∃ ks st',
    run hash_ll rs st = Ok (ks, st') ∧ wf hash_ll st' ∧ counted st' ∧
    dom (string_keys_ht st') =
      dom (string_keys_ht st) ∪ list_to_set (requested_hashes hash_ll rs).
Proof.
  revert st. induction rs as [|r rs IH]; intros st Hwf Hcnt Hroom; simpl in *.
  - exists [], st. split_and!; try done. set_solver.
  - destruct (serve_counted r st Hwf Hcnt)
      as (k & st1 & -> & Hwf1 & Hcnt1 & Hn1 & Hdom1); [lia|].
    destruct (IH st1 Hwf1 Hcnt1) as (ks & st2 & -> & Hwf2 & Hcnt2 & Hdom2); [lia|].
    exists (k :: ks), st2. split_and!; try done.
    rewrite Hdom2, Hdom1. destruct r; simpl; set_solver.
Qed.

(** After any sequential run of requests from the empty tables the counter
    is the number of different hashes among the requested strings: the
    cache holds exactly those hashes, each has taken one id and one name,
    and a repeated request takes none. *)
Theorem counter_counts_hashes rs :
  Z.of_nat (length rs) ≤ max_string_keys →
  ∃ ks st,
    run hash_ll rs init = Ok (ks, st) ∧
    dom (string_keys_ht st) = list_to_set (requested_hashes hash_ll rs) ∧
    n_string_keys_ht st =
      Z.of_nat (size (list_to_set (requested_hashes hash_ll rs) : gset Z)) ∧
    n_string_keys_ht st = Z.of_nat (size (string_key_names_ht st)).
Proof.
  intros Hlen.
  destruct (run_counted rs init (KeyFacts.wf_init hash_ll) counted_init)
    as (ks & st & Hrun & _ & [Hc1 Hc2] & Hdom); [simpl; lia|].
  simpl in Hdom. rewrite dom_empty_L, (left_id_L ∅ (∪)) in Hdom.
  exists ks, st. split_and!; try done.
  by rewrite <- Hdom, size_dom.
Qed.

End Facts.

(** An example: "foo" asked three times among other requests. *)
Lemma counter_counts_hashes_witness :
  ∃ ks st,
    run sample_hash
        [StringKey "foo"; IntKey 3; StringKey "bar"; StringKey "foo";
         StringKey "foo"] init = Ok (ks, st) ∧
    dom (string_keys_ht st) =
      list_to_set (requested_hashes sample_hash
        [StringKey "foo"; IntKey 3; StringKey "bar"; StringKey "foo";
         StringKey "foo"]) ∧
    n_string_keys_ht st =
      Z.of_nat (size (list_to_set (requested_hashes sample_hash
        [StringKey "foo"; IntKey 3; StringKey "bar"; StringKey "foo";
         StringKey "foo"]) : gset Z)) ∧
    n_string_keys_ht st = Z.of_nat (size (string_key_names_ht st)).
Proof.
  apply (counter_counts_hashes sample_hash
           [StringKey "foo"; IntKey 3; StringKey "bar"; StringKey "foo";
            StringKey "foo"]).
  by vm_compute.
Defined.

(** In that run the counter ends at 2. *)
Lemma counter_example :
  ∃ ks st,
    run sample_hash
        [StringKey "foo"; IntKey 3; StringKey "bar"; StringKey "foo";
         StringKey "foo"] init = Ok (ks, st) ∧
    Key.id <$> ks = [2; 7; 4; 2; 2] ∧ n_string_keys_ht st = 2.
Proof. eexists _, _. split; [vm_compute; reflexivity|]. by vm_compute. Qed.

(** An example: 5 and 5 - 2^31. *)
Lemma int_key_equal_iff_witness :
  ((int_key 5 init).1 = (int_key (-2147483643) init).1
     ↔ (5 - -2147483643) mod 2 ^ 31 = 0) ∧
  (- 2 ^ 30 ≤ 5 < 2 ^ 30 → - 2 ^ 30 ≤ -2147483643 < 2 ^ 30 →
   (int_key 5 init).1 = (int_key (-2147483643) init).1 → 5 = -2147483643).
Proof.
  apply (int_key_equal_iff sample_hash init init 5 (-2147483643));
    apply KeyFacts.wf_init.
Defined.

(** Those two integers do share the key of id 11. *)
Lemma int_key_shared_example :
  (int_key 5 init).1 = Build 11 ∧ (int_key (-2147483643) init).1 = Build 11.
Proof. by vm_compute. Qed.

End KeyInvariants.

(** ** What a race on the interner cannot break *)
Module RaceSafety.

Import Key Race.

Section Facts.

Variable hash_ll : string → Z.







End Facts.


End RaceSafety.

(** ** What a flag setter changes and what it leaves alone *)
Module FlagFrames.

Import TypeData.

Section Facts.

Context {PrimitiveType ClassPtr : Type}.

Abbreviation node := (TypeData.t PrimitiveType ClassPtr).
Abbreviation store := (TypeData.store PrimitiveType ClassPtr).

Variable should_proxy : store → nat → bool.

(** *** One bit *)

Lemma flag_values_disjoint F G : F ≠ G → Z.land (flag_value F) (flag_value G) = 0.
Proof. by destruct F, G. Qed.

Lemma get_flag_or_flag_other F G (x : node) :
  F ≠ G → get_flag G (or_flag F x) = get_flag G x.
Proof.
  intros Hne. unfold get_flag, or_flag; simpl.
  by rewrite Z.land_lor_distr_l, (flag_values_disjoint F G Hne), Z.lor_0_r.
Qed.

Lemma get_flag_raise F G cur (x : node) :
  get_flag G (raise F cur x) = get_flag G x || bool_decide (F = G).
Proof.
  unfold raise. destruct (get_flag F x) eqn:HF.
  - case_bool_decide as HFG; [subst; by rewrite HF|by rewrite orb_false_r].
  - change (get_flag G (with_generation (or_flag F x) cur))
      with (get_flag G (or_flag F x)).
    case_bool_decide as HFG.
    + subst. by rewrite TypeDataFacts.get_flag_or_flag_same, orb_true_r.
    + by rewrite get_flag_or_flag_other, orb_false_r.
Qed.

Lemma set_flag_primary_raise F a (σ : store) :
  set_flag_primary F true a σ =
    match nodes σ !! a with
    | Some x => Ok (write_node a (raise F (current_generation_ σ) x) σ)
    | None => Segfault
    end.
Proof.
  unfold set_flag_primary, raise. destruct (nodes σ !! a) as [x|] eqn:Hx; [|done].
  destruct (get_flag F x); f_equal; symmetry; apply TypeDataFacts.store_eq;
    try done; intros b; simpl.
  - destruct (decide (a = b)) as [<-|Hne];
      [by rewrite lookup_insert_eq|by rewrite lookup_insert_ne].
  - destruct (decide (a = b)) as [<-|Hne].
    + by rewrite lookup_alter_eq, !lookup_insert_eq.
    + by rewrite lookup_alter_ne, !lookup_insert_ne.
Qed.

Lemma set_flag_primary_changes F f a (σ σ' : store) :
  F ≠ error_flag_e →
  set_flag should_proxy F f a σ = Some (Ok σ') →
  current_generation_ σ' = current_generation_ σ ∧
  (∀ b, b ≠ a → nodes σ' !! b = nodes σ !! b) ∧
  ∃ x x',
    nodes σ !! a = Some x ∧ nodes σ' !! a = Some x' ∧
    (∀ G, G ≠ F → get_flag G x' = get_flag G x) ∧
    get_flag F x' = get_flag F x || f ∧
    ptype_ x' = ptype_ x ∧ class_type_ x' = class_type_ x ∧
    parent_ x' = parent_ x ∧ anykey_value x' = anykey_value x ∧
    subkeys_values x' = subkeys_values x.
Proof.
  intros HF. rewrite TypeDataFacts.set_flag_primary_case by done.
  intros [= Hrun].
  destruct (nodes σ !! a) as [x|] eqn:Hx.
  2:{ unfold set_flag_primary in Hrun. by rewrite Hx in Hrun. }
  destruct f.
  - rewrite set_flag_primary_raise, Hx in Hrun. injection Hrun as <-.
    split; [done|]. split.
    { intros b Hne. simpl. by rewrite lookup_insert_ne. }
    exists x, (raise F (current_generation_ σ) x). simpl.
    rewrite lookup_insert_eq. split_and!; try done.
    + intros G HG. rewrite get_flag_raise.
      rewrite bool_decide_eq_false_2 by done. apply orb_false_r.
    + by rewrite get_flag_raise, bool_decide_eq_true_2.
    + unfold raise. by destruct (get_flag F x).
    + unfold raise. by destruct (get_flag F x).
    + unfold raise. by destruct (get_flag F x).
    + unfold raise. by destruct (get_flag F x).
    + unfold raise. by destruct (get_flag F x).
  - rewrite (TypeDataFacts.set_flag_primary_eq _ _ _ _ x Hx) in Hrun.
    destruct (get_flag F x) eqn:Hon; [done|]. injection Hrun as <-.
    split; [done|]. split; [done|]. exists x, x. by rewrite Hon.
Qed.


(** *** Two setters *)

Lemma raise_comm F G cur (x : node) :
  raise F cur (raise G cur x) = raise G cur (raise F cur x).
Proof.
  destruct (decide (F = G)) as [->|Hne]; [done|].
  unfold raise at 1 3.
  rewrite !get_flag_raise, !bool_decide_eq_false_2, !orb_false_r by done.
  destruct (get_flag F x) eqn:HF, (get_flag G x) eqn:HG;
    unfold raise; rewrite ?HF, ?HG; try done.
  unfold with_generation, or_flag, with_flags; simpl. f_equal.
  rewrite <- !Z.lor_assoc. f_equal. apply Z.lor_comm.
Qed.

(** Setting two flags of the primary template, on one node or on two, has
    the same outcome in either order. *)
Theorem primary_setters_commute F G a b (σ : store) :
  F ≠ error_flag_e → G ≠ error_flag_e →
  exec_all should_proxy [SetFlag F true a; SetFlag G true b] σ =
  exec_all should_proxy [SetFlag G true b; SetFlag F true a] σ.
Proof.
  intros HF HG. simpl.
  rewrite !TypeDataFacts.set_flag_primary_case, !set_flag_primary_raise by done.
  destruct (nodes σ !! a) as [x|] eqn:Hx, (nodes σ !! b) as [y|] eqn:Hy; simpl.
  - rewrite !TypeDataFacts.set_flag_primary_case, !set_flag_primary_raise by done.
    simpl. destruct (decide (a = b)) as [<-|Hne].
    + rewrite !lookup_insert_eq. assert (y = x) as -> by congruence.
      do 2 f_equal. unfold write_node; simpl.
      by rewrite !insert_insert_eq, raise_comm.
    + rewrite !lookup_insert_ne, Hx, Hy by done.
      do 2 f_equal. unfold write_node; simpl. f_equal.
      by apply insert_insert_ne.
  - rewrite !TypeDataFacts.set_flag_primary_case, !set_flag_primary_raise by done.
    simpl. destruct (decide (a = b)) as [<-|Hne]; [congruence|].
    by rewrite lookup_insert_ne, Hy.
  - rewrite !TypeDataFacts.set_flag_primary_case, !set_flag_primary_raise by done.
    simpl. destruct (decide (a = b)) as [<-|Hne]; [congruence|].
    by rewrite lookup_insert_ne, Hx.
  - done.
Qed.

(** *** The error flag along the parent chain *)

Lemma raised_error_lookup (σ σ' : store) b y' :
  raised_error σ σ' → nodes σ' !! b = Some y' →
  ∃ y, nodes σ !! b = Some y ∧ parent_ y' = parent_ y ∧
       (get_flag error_flag_e y = true → y' = y).
Proof.
  intros [_ Hr] Hy'. destruct (Hr b) as [Hsame|(y & Hy & Hoff & Hnew)].
  - exists y'. split; [congruence|done].
  - exists y. split; [done|]. assert (y' = or_flag error_flag_e y) as -> by congruence.
    split; [done|]. congruence.
Qed.

Lemma ancestor_write a (x : node) (σ : store) c b :
  nodes σ !! a = Some x →
  ancestor (write_node a (or_flag error_flag_e x) σ) c b → ancestor σ c b.
Proof.
  intros Hx. induction 1 as [c|c z p b Hz Hp _ IH]; [constructor|].
  unfold write_node in Hz; simpl in Hz.
  apply lookup_insert_Some in Hz as [[<- <-]|[Hne Hz]].
  - by eapply ancestor_step.
  - by eapply ancestor_step.
Qed.

Lemma set_flag_error_ancestors fuel f a (σ σ' : store) :
  set_flag_error should_proxy fuel f a σ = Some (Ok σ') →
  ∀ b, nodes σ' !! b ≠ nodes σ !! b → ancestor σ a b.
Proof.
  revert a σ f. induction fuel as [|fuel IH]; intros a σ f; simpl; [done|].
  destruct f; [|by intros [= <-] b Hb].
  destruct (nodes σ !! a) as [x|] eqn:Hx; [|done].
  destruct (get_flag error_flag_e x) eqn:Hoff; simpl; [by intros [= <-] b Hb|].
  assert (Hone : ∀ b, nodes (write_node a (or_flag error_flag_e x) σ) !! b
                      ≠ nodes σ !! b → b = a).
  { intros b Hb. destruct (decide (b = a)) as [|Hne]; [done|].
    simpl in Hb. by rewrite lookup_insert_ne in Hb. }
  destruct (parent_ x) as [p|] eqn:Hp.
  2:{ intros [= <-] b Hb. rewrite (Hone b Hb). constructor. }
  destruct (should_proxy _ a).
  2:{ intros [= <-] b Hb. rewrite (Hone b Hb). constructor. }
  intros Hrun b Hb.
  destruct (decide (b = a)) as [->|Hne]; [constructor|].
  eapply ancestor_step; [done..|].
  eapply ancestor_write; [done|]. eapply IH; [done|].
  simpl. by rewrite lookup_insert_ne.
Qed.

(** Setting the error flag changes only nodes on the chain of parents above
    the node it is called on, and in them only sets the error bit. *)
Theorem error_setter_touches_ancestors_only f a (σ σ' : store) b :
  set_flag should_proxy error_flag_e f a σ = Some (Ok σ') →
  nodes σ' !! b ≠ nodes σ !! b →
  ancestor σ a b ∧
  ∃ y, nodes σ !! b = Some y ∧ get_flag error_flag_e y = false ∧
       nodes σ' !! b = Some (or_flag error_flag_e y).
Proof.
  rewrite TypeDataFacts.set_flag_error_eq. intros Hrun Hb. split.
  - by eapply set_flag_error_ancestors.
  - apply TypeDataFacts.set_flag_error_raised in Hrun as [_ Hr].
    by destruct (Hr b).
Qed.

(** The closure of error flags while a call climbs: every node obeys it or
    has the node being flagged as its parent. *)
Lemma set_flag_error_closes fuel a (σ σ' : store) :
  (∀ σ0 a0, should_proxy σ0 a0 = true) →
  (∀ b, closed_at σ b ∨ ∃ xb, nodes σ !! b = Some xb ∧ parent_ xb = Some a) →
  set_flag_error should_proxy fuel true a σ = Some (Ok σ') →
  upward_closed σ'.
Proof.
  intros Halways. revert a σ.
  induction fuel as [|fuel IH]; intros a σ Hinv; simpl; [done|].
  destruct (nodes σ !! a) as [x|] eqn:Hx; [|done].
  destruct (get_flag error_flag_e x) eqn:Hoff; simpl.
  { intros [= <-] b xb p y Hxb Hon Hp Hy.
    destruct (Hinv b) as [Hc|(xb' & Hxb' & Hpa)]; [by eapply Hc|].
    assert (p = a) as -> by congruence. congruence. }
  set (σ1 := write_node a (or_flag error_flag_e x) σ).
  assert (Hflag1 : ∀ p y, nodes σ !! p = Some y → get_flag error_flag_e y = true →
            ∃ y1, nodes σ1 !! p = Some y1 ∧ get_flag error_flag_e y1 = true).
  { intros p y Hy Hon. unfold σ1; simpl. destruct (decide (a = p)) as [<-|Hne].
    - rewrite lookup_insert_eq. eexists. split; [done|].
      apply TypeDataFacts.get_flag_or_flag_same.
    - rewrite lookup_insert_ne by done. eauto. }
  assert (Hclosed1 : ∀ b, b ≠ a → closed_at σ1 b).
  { intros b Hne xb p y1 Hxb Hon Hp Hy1.
    unfold σ1 in Hxb; simpl in Hxb. rewrite lookup_insert_ne in Hxb by done.
    destruct (decide (a = p)) as [<-|Hnp].
    { unfold σ1 in Hy1; simpl in Hy1. rewrite lookup_insert_eq in Hy1.
      injection Hy1 as <-. apply TypeDataFacts.get_flag_or_flag_same. }
    unfold σ1 in Hy1; simpl in Hy1. rewrite lookup_insert_ne in Hy1 by done.
    destruct (Hinv b) as [Hc|(xb' & Hxb' & Hpa)]; [by eapply Hc|congruence]. }
  destruct (parent_ x) as [p0|] eqn:Hp0.
  - rewrite Halways. apply IH. intros b.
    destruct (decide (b = a)) as [->|Hne]; [|left; by apply Hclosed1].
    right. exists (or_flag error_flag_e x). split; [|done].
    unfold σ1; simpl. apply lookup_insert_eq.
  - intros [= <-] b xb p y Hxb Hon Hp Hy.
    destruct (decide (b = a)) as [->|Hne]; [|by eapply (Hclosed1 b)].
    unfold σ1 in Hxb; simpl in Hxb. rewrite lookup_insert_eq in Hxb.
    injection Hxb as <-. simpl in Hp. congruence.
Qed.

Lemma exec_closed o (σ σ' : store) :
  (∀ σ0 a0, should_proxy σ0 a0 = true) →
  upward_closed σ → exec should_proxy o σ = Some (Ok σ') → upward_closed σ'.
Proof.
  intros Halways Hclosed. destruct o as [F f a|]; simpl.
  2:{ by intros [= <-]. }
  destruct (decide (F = error_flag_e)) as [->|HF].
  - rewrite TypeDataFacts.set_flag_error_eq. destruct f.
    + apply set_flag_error_closes; [done|]. intros b. left.
      intros x p y. apply Hclosed.
    + simpl. by intros [= <-].
  - intros Hrun.
    destruct (set_flag_primary_changes F f a σ σ' HF Hrun)
      as (_ & Hother & x & x' & Hx & Hx' & Hflags & _ & _ & _ & Hpar & _).
    assert (Hview : ∀ b z', nodes σ' !! b = Some z' →
              ∃ z, nodes σ !! b = Some z ∧ parent_ z' = parent_ z ∧
                   get_flag error_flag_e z' = get_flag error_flag_e z).
    { intros b z' Hz'. destruct (decide (b = a)) as [->|Hne].
      - exists x. assert (z' = x') as -> by congruence.
        split_and!; [done|done|]. apply Hflags. by intros <-.
      - exists z'. by rewrite <- Hother. }
    intros b xb' p y' Hxb' Hon Hp Hy'.
    destruct (Hview b xb' Hxb') as (xb & Hxb & Hpb & Hfb).
    destruct (Hview p y' Hy') as (y & Hy & _ & Hfy).
    rewrite Hfy. eapply (Hclosed b xb p y); congruence.
Qed.

(** With a predicate that always holds, the closure of error flags is kept
    by every run of setters: if the parent of every flagged node was
    flagged before, it is afterwards. *)
Theorem error_flags_stay_closed os (σ σ' : store) :
  (∀ σ0 a0, should_proxy σ0 a0 = true) →
  upward_closed σ → exec_all should_proxy os σ = Some (Ok σ') →
  upward_closed σ'.
Proof.
  intros Halways. revert σ. induction os as [|o os IH]; intros σ Hclosed; simpl.
  - by intros [= <-].
  - destruct (exec should_proxy o σ) as [[σ1| |]|] eqn:Ho; try done.
    apply IH. by eapply exec_closed.
Qed.

(** With a predicate that always holds and error flags closed upward, an
    error set on a node reaches every node above it: after the call every
    ancestor that is alive has the error flag. *)
Theorem error_reaches_ancestors a (σ σ' : store) b y :
  (∀ σ0 a0, should_proxy σ0 a0 = true) →
  upward_closed σ →
  set_flag should_proxy error_flag_e true a σ = Some (Ok σ') →
  ancestor σ a b → nodes σ' !! b = Some y →
  get_flag error_flag_e y = true.
Proof.
  intros Halways Hclosed Hrun Hanc.
  assert (Hclosed' : upward_closed σ').
  { eapply (exec_closed (SetFlag error_flag_e true a)); done. }
  rewrite TypeDataFacts.set_flag_error_eq in Hrun.
  pose proof (TypeDataFacts.set_flag_error_sets _ _ _ _ _ Hrun) as (ya & Hya & Hona).
  apply TypeDataFacts.set_flag_error_raised in Hrun.
  clear Hclosed. revert y ya Hya Hona.
  induction Hanc as [a|a x p b Hx Hp Hanc IH]; intros y ya Hya Hona Hy.
  { congruence. }
  destruct (raised_error_lookup σ σ' a ya Hrun Hya) as (x0 & Hx0 & Hpar & _).
  assert (x0 = x) as -> by congruence.
  destruct (nodes σ' !! p) as [yp|] eqn:Hyp.
  - eapply (IH y yp); [done| |done].
    eapply (Hclosed' a ya p yp); congruence.
  - inversion Hanc as [|? xp ? ? Hxp]; subst; [congruence|].
    destruct Hrun as [_ Hr]. destruct (Hr p) as [Hs|(? & _ & _ & Hn)]; congruence.
Qed.

End Facts.


(** An example: write on the child and or_false on the parent. *)
Lemma primary_setters_commute_witness :
  exec_all always [SetFlag write_flag_e true 1; SetFlag or_false_flag_e true 0] family =
  exec_all always [SetFlag or_false_flag_e true 0; SetFlag write_flag_e true 1] family.
Proof.
  apply (primary_setters_commute always write_flag_e or_false_flag_e 1%nat 0%nat family);
    done.
Defined.

Lemma family_upward_closed : upward_closed family.
Proof.
  intros a x p y. unfold family; simpl.
  by intros [[<- <-]|[_ [[<- <-]|[_ H]]%lookup_insert_Some]]%lookup_insert_Some.
Qed.

(** An example: the error flag set on the child of the family. *)
Lemma error_setter_touches_ancestors_only_witness :
  let σ' := Store (<[0%nat := Node tt tt 8 0 None (Some 1%nat) []]>
                     (<[1%nat := leaf 8 0 (Some 0%nat)]> ∅)) 1 in
  ancestor family 1%nat 0%nat ∧
  ∃ y, nodes family !! 0%nat = Some y ∧ get_flag error_flag_e y = false ∧
       nodes σ' !! 0%nat = Some (or_flag error_flag_e y).
Proof.
  apply (error_setter_touches_ancestors_only always true 1%nat family);
    [vm_compute; reflexivity|by vm_compute].
Defined.

(** An example: a run of setters on the family. *)
Lemma error_flags_stay_closed_witness :
  upward_closed
    (Store (<[0%nat := Node tt tt 8 0 None (Some 1%nat) []]>
              (<[1%nat := leaf 10 1 (Some 0%nat)]> ∅)) 1).
Proof.
  apply (error_flags_stay_closed always
           [SetFlag read_flag_e true 1; SetFlag error_flag_e true 1] family);
    [done|apply family_upward_closed|vm_compute; reflexivity].
Defined.

(** An example: the error of the child reaches the parent. *)
Lemma error_reaches_ancestors_witness :
  get_flag error_flag_e (Node tt tt 8 0 None (Some 1%nat) [] : TypeData.t unit unit)
    = true.
Proof.
  apply (error_reaches_ancestors always 1%nat family
           (Store (<[0%nat := Node tt tt 8 0 None (Some 1%nat) []]>
                     (<[1%nat := leaf 8 0 (Some 0%nat)]> ∅)) 1) 0%nat).
  - done.
  - apply family_upward_closed.
  - vm_compute. reflexivity.
  - eapply ancestor_step; [by vm_compute|done|constructor].
  - by vm_compute.
Defined.

End FlagFrames.

(** ** Code generation: collected types, parts, file names *)
Module CodeGenFacts.

Import CodeGen.

(** *** The pass *)
Section PassFacts.

Import CollectForkableTypes.

Context {VertexPtr TypePtr : Type}.

Variable try_as_func_call : VertexPtr → option func_call.
Variable get_type : VertexPtr → TypePtr.
Variable const_read_at : TypePtr → Key.t → TypePtr.

Abbreviation enter := (on_enter_vertex try_as_func_call get_type const_read_at).
Abbreviation run_pass :=
  (run_function_pass try_as_func_call get_type const_read_at).
Abbreviation forkable_by :=
  (makes_forkable try_as_func_call get_type const_read_at).
Abbreviation waitable_by :=
  (makes_waitable try_as_func_call get_type const_read_at).

Lemma on_enter_vertex_forkable root (p : t TypePtr) x :
  x ∈ forkable_types (enter root p) ↔ x ∈ forkable_types p ∨ forkable_by root x.
Proof.
  unfold on_enter_vertex, makes_forkable.
  destruct (try_as_func_call root) as [[res str]|]; simpl; [|naive_solver].
  destruct res; repeat case_decide; simpl;
    rewrite ?elem_of_app, ?list_elem_of_singleton; naive_solver.
Qed.

Lemma on_enter_vertex_waitable root (p : t TypePtr) x :
  x ∈ waitable_types (enter root p) ↔ x ∈ waitable_types p ∨ waitable_by root x.
Proof.
  unfold on_enter_vertex, makes_waitable.
  destruct (try_as_func_call root) as [[res str]|]; simpl; [|naive_solver].
  destruct res; repeat case_decide; simpl;
    rewrite ?elem_of_app, ?list_elem_of_singleton; naive_solver.
Qed.

Lemma run_function_pass_collects roots (p : t TypePtr) x :
  (x ∈ forkable_types (run_pass roots p) ↔
     x ∈ forkable_types p ∨ ∃ root, root ∈ roots ∧ forkable_by root x) ∧
  (x ∈ waitable_types (run_pass roots p) ↔
     x ∈ waitable_types p ∨ ∃ root, root ∈ roots ∧ waitable_by root x).
Proof.
  revert p. induction roots as [|root roots IH]; intros p; simpl.
  { split; (split; [by left|]); by intros [?|(? & ?%elem_of_nil & _)]. }
  destruct (IH (enter root p)) as [IHf IHw].
  unfold run_function_pass in *. simpl.
  rewrite IHf, IHw, on_enter_vertex_forkable, on_enter_vertex_waitable.
  split; split.
  - intros [[?|?]|(r & ? & ?)]; [by left|right..].
    + exists root. split; [apply elem_of_cons; by left|done].
    + exists r. split; [apply elem_of_cons; by right|done].
  - intros [?|(r & [->|?]%elem_of_cons & ?)]; eauto.
  - intros [[?|?]|(r & ? & ?)]; [by left|right..].
    + exists root. split; [apply elem_of_cons; by left|done].
    + exists r. split; [apply elem_of_cons; by right|done].
  - intros [?|(r & [->|?]%elem_of_cons & ?)]; eauto.
Qed.

(** The pass over the vertices of a function collects as forkable exactly
    the types of the resumable calls and the any-key element types of the
    resumable calls of [wait_multi], and as waitable exactly the types of
    the resumable calls of [wait], of the calls of [wait_synchronously] that
    are not resumable, and the any-key element types of the resumable calls
    of [wait_multi]. *)
Theorem pass_collects roots x :
  (x ∈ forkable_types (run_pass roots empty) ↔
     ∃ root, root ∈ roots ∧ forkable_by root x) ∧
  (x ∈ waitable_types (run_pass roots empty) ↔
     ∃ root, root ∈ roots ∧ waitable_by root x).
Proof.
  destruct (run_function_pass_collects roots empty x) as [Hf Hw].
  rewrite Hf, Hw. simpl. split; split; try (intros [?%elem_of_nil|?]; done); eauto.
Qed.

(** *** [execute] *)

Abbreviation exec := (execute try_as_func_call get_type const_read_at).
Abbreviation exec_all := (execute_all try_as_func_call get_type const_read_at).

Lemma execute_appends roots (cg : CodeGenF TypePtr) :
  CodeGen.waitable_types (exec roots cg) =
    CodeGen.waitable_types cg ++ CollectForkableTypes.waitable_types (run_pass roots empty) ∧
  CodeGen.forkable_types (exec roots cg) =
    CodeGen.forkable_types cg ++ CollectForkableTypes.forkable_types (run_pass roots empty).
Proof.
  unfold execute.
  destruct (CollectForkableTypes.waitable_types (run_pass roots empty)) as [|w ws];
    destruct (CollectForkableTypes.forkable_types (run_pass roots empty)) as [|f fs];
    simpl; try done.
  by rewrite !app_nil_r.
Qed.

Lemma execute_all_appends functions (cg : CodeGenF TypePtr) :
  CodeGen.waitable_types (exec_all functions cg) =
    CodeGen.waitable_types cg ++
    (functions ≫= λ roots, CollectForkableTypes.waitable_types (run_pass roots empty)) ∧
  CodeGen.forkable_types (exec_all functions cg) =
    CodeGen.forkable_types cg ++
    (functions ≫= λ roots, CollectForkableTypes.forkable_types (run_pass roots empty)).
Proof.
  revert cg. induction functions as [|roots functions IH]; intros cg; simpl.
  { by rewrite !app_nil_r. }
  unfold execute_all in *. simpl.
  destruct (IH (exec roots cg)) as [-> ->].
  destruct (execute_appends roots cg) as [-> ->].
  by rewrite <- !app_assoc.
Qed.

(** The types that reach the two vectors of [CodeGenF] are those the passes
    collect, whatever the order in which the calls of [execute] take the
    lock: another order permutes the vectors and nothing else, and what was
    in them before stays in front. *)
Theorem execute_all_order functions functions' (cg : CodeGenF TypePtr) :
  functions ≡ₚ functions' →
  CodeGen.waitable_types (exec_all functions cg) ≡ₚ CodeGen.waitable_types (exec_all functions' cg) ∧
  CodeGen.forkable_types (exec_all functions cg) ≡ₚ CodeGen.forkable_types (exec_all functions' cg) ∧
  CodeGen.waitable_types cg `prefix_of` CodeGen.waitable_types (exec_all functions cg) ∧
  CodeGen.forkable_types cg `prefix_of` CodeGen.forkable_types (exec_all functions cg).
Proof.
  intros Hperm.
  destruct (execute_all_appends functions cg) as [-> ->].
  destruct (execute_all_appends functions' cg) as [-> ->].
  split_and!; try by apply prefix_app_r.
  - by rewrite Hperm.
  - by rewrite Hperm.
Qed.

(** A type is in a vector of [CodeGenF] after the functions have been
    executed exactly if it was there before or some call in some function
    makes it waitable, respectively forkable. *)
Theorem execute_all_collects functions (cg : CodeGenF TypePtr) x :
  (x ∈ CodeGen.waitable_types (exec_all functions cg) ↔
     x ∈ CodeGen.waitable_types cg ∨
     ∃ roots root, roots ∈ functions ∧ root ∈ roots ∧ waitable_by root x) ∧
  (x ∈ CodeGen.forkable_types (exec_all functions cg) ↔
     x ∈ CodeGen.forkable_types cg ∨
     ∃ roots root, roots ∈ functions ∧ root ∈ roots ∧ forkable_by root x).
Proof.
  destruct (execute_all_appends functions cg) as [-> ->].
  rewrite !elem_of_app, !list_elem_of_bind. split.
  - split; (intros [?|H]; [by left|right]).
    + destruct H as (roots & Hx & ?).
      apply run_function_pass_collects in Hx as [?%elem_of_nil|(root & ? & ?)];
        [done|eauto].
    + destruct H as (roots & root & ? & ? & ?). exists roots. split; [|done].
      apply run_function_pass_collects. right. eauto.
  - split; (intros [?|H]; [by left|right]).
    + destruct H as (roots & Hx & ?).
      apply run_function_pass_collects in Hx as [?%elem_of_nil|(root & ? & ?)];
        [done|eauto].
    + destruct H as (roots & root & ? & ? & ?). exists roots. split; [|done].
      apply run_function_pass_collects. right. eauto.
Qed.

End PassFacts.

(** *** Strings *)

Lemma append_cons c s t : String c s +:+ t = String c (s +:+ t).
Proof. done. Qed.

Lemma length_append s t :
  String.length (s +:+ t) = (String.length s + String.length t)%nat.
Proof.
  induction s as [|c s IH]; [done|]. rewrite append_cons. simpl. by rewrite IH.
Qed.

Lemma append_inj_suffix s1 s2 t : s1 +:+ t = s2 +:+ t → s1 = s2.
Proof.
  revert s2. induction s1 as [|c1 s1 IH]; intros [|c2 s2] Heq; try done.
  - apply (f_equal String.length) in Heq.
    rewrite !length_append in Heq. simpl in Heq. lia.
  - apply (f_equal String.length) in Heq.
    rewrite !length_append in Heq. simpl in Heq. lia.
  - rewrite !append_cons in Heq. injection Heq as -> Heq. f_equal. by apply IH.
Qed.

Lemma occurs_append c s t : occurs c (s +:+ t) = occurs c s || occurs c t.
Proof.
  induction s as [|d s IH]; [done|].
  rewrite append_cons. simpl. by rewrite IH, orb_assoc.
Qed.

Lemma occurs_std_replace old new s :
  old ≠ new → occurs old (std_replace old new s) = false.
Proof.
  intros Hne. induction s as [|c s IH]; [done|]. simpl. rewrite IH, orb_false_r.
  destruct (Ascii.eqb c old) eqn:Hc; [|done].
  apply Ascii.eqb_neq. congruence.
Qed.

Lemma std_replace_id old new s :
  occurs old s = false → std_replace old new s = s.
Proof.
  induction s as [|c s IH]; [done|]. simpl.
  intros [Hc Hs]%orb_false_elim. by rewrite Hc, IH.
Qed.

Lemma std_replace_length old new s :
  String.length (std_replace old new s) = String.length s.
Proof. induction s as [|c s IH]; [done|]. simpl. by rewrite IH. Qed.

Lemma std_replace_inj old new s1 s2 :
  occurs new s1 = false → occurs new s2 = false →
  std_replace old new s1 = std_replace old new s2 → s1 = s2.
Proof.
  revert s2. induction s1 as [|c1 s1 IH]; intros [|c2 s2]; simpl; try done.
  intros [Hc1 Hs1]%orb_false_elim [Hc2 Hs2]%orb_false_elim [= Hc Hs].
  f_equal; [|by apply IH].
  apply Ascii.eqb_neq in Hc1, Hc2.
  destruct (Ascii.eqb c1 old) eqn:H1, (Ascii.eqb c2 old) eqn:H2; try congruence.
  apply Ascii.eqb_eq in H1, H2. congruence.
Qed.

(** *** Parts, directories, file names *)

(** For a positive split count the parts hold all variables, and all parts
    but the last are full: with [p] parts of [split] variables each,
    [(p - 1) * split <= cnt < p * split]; there is always at least one
    part, and the last one is empty when [split] divides [cnt]. *)
Theorem calc_count_of_parts_bounds split cnt :
  0 < split → 0 ≤ cnt < 2 ^ 64 - 1 →
  1 ≤ calc_count_of_parts split cnt ∧
  (calc_count_of_parts split cnt - 1) * split ≤ cnt
    < calc_count_of_parts split cnt * split ∧
  (cnt mod split = 0 → cnt = (calc_count_of_parts split cnt - 1) * split).
Proof.
  intros Hs Hc. unfold calc_count_of_parts, to_size_t.
  assert (Hq : 0 ≤ cnt `div` split ≤ cnt).
  { split; [apply Z.div_pos; lia|]. apply Z.div_le_upper_bound; nia. }
  rewrite Z.mod_small by lia.
  pose proof (Z.mul_div_le cnt split Hs).
  pose proof (Z.mul_succ_div_gt cnt split Hs).
  split_and!; try lia.
  intros Hmod. pose proof (Z.div_mod cnt split). lia.
Qed.

Section Names.

Context {VarPtr : Type}.

Variable std_hash : string → Z.
Variable my_unique : list VarPtr → list VarPtr.

Abbreviation prepare := (prepare_generate_function std_hash my_unique).

(** For a hash that is not negative [get_subdir] returns one of the
    hundred names [o_0] to [o_99]. *)
Theorem get_subdir_bucket base :
  0 ≤ std_hash base →
  get_subdir std_hash base ∈ subdirs ∧
  ∃ b, 0 ≤ b < 100 ∧ get_subdir std_hash base = "o_" +:+ std_to_string b.
Proof.
  intros Hh. pose proof (Z.rem_bound_pos (std_hash base) 100 Hh) as Hb.
  unfold get_subdir. rewrite to_int_small by (int_consts; lia).
  split.
  - unfold subdirs. apply list_elem_of_fmap.
    exists (Z.rem (std_hash base) 100). split; [done|].
    apply elem_of_seqZ. lia.
  - exists (Z.rem (std_hash base) 100). split; [lia|done].
Qed.

(** The file names [prepare_generate_function] gives a function: no [$] in
    the header or source name; a name without [$] is kept; an inline
    function keeps the source name it had; the function is otherwise as it
    was; and a function that does not come from a static library has its
    header in its subdirectory. *)
Theorem prepared_file_names (func : FunctionData VarPtr) :
  occurs "$" (header_name (prepare func)) = false ∧
  (is_inline func = false →
     src_name (prepare func) = std_replace "$" "@" (name func) +:+ ".cpp" ∧
     occurs "$" (src_name (prepare func)) = false) ∧
  (is_inline func = true → src_name (prepare func) = src_name func) ∧
  (occurs "$" (name func) = false →
     header_name (prepare func) = name func +:+ ".h") ∧
  String.length (header_name (prepare func)) = (String.length (name func) + 2)%nat ∧
  (is_imported_from_static_lib func = false →
     header_full_name (prepare func) =
       subdir (prepare func) +:+ "/" +:+ header_name (prepare func)) ∧
  name (prepare func) = name func ∧ type (prepare func) = type func ∧
  body_seq (prepare func) = body_seq func ∧
  is_extern (prepare func) = is_extern func ∧
  kphp_lib_export (prepare func) = kphp_lib_export func.
Proof.
  unfold prepare_generate_function; simpl. split_and!; try done.
  - by rewrite occurs_append, occurs_std_replace.
  - intros ->. simpl. split; [done|]. by rewrite occurs_append, occurs_std_replace.
  - by intros ->.
  - intros Hno. by rewrite std_replace_id.
  - by rewrite length_append, std_replace_length.
  - by intros ->.
Qed.

(** Functions whose names hold no [@] get different header names when their
    names differ. *)
Theorem header_names_distinct (f1 f2 : FunctionData VarPtr) :
  occurs "@" (name f1) = false → occurs "@" (name f2) = false →
  header_name (prepare f1) = header_name (prepare f2) → name f1 = name f2.
Proof.
  intros H1 H2 Heq. unfold prepare_generate_function in Heq; simpl in Heq.
  apply append_inj_suffix in Heq. by eapply std_replace_inj.
Qed.

End Names.

(** *** [on_finish] *)
Section FinishFacts.

Context {FunctionPtr ClassPtr SrcFilePtr VarPtr TypePtr : Type}.
Context `{EqDecision FunctionPtr}.

Variable std_hash : string → Z.
Variable my_unique : list VarPtr → list VarPtr.
Variable does_need_codegen : ClassPtr → bool.
Variable class_type : ClassPtr → ClassType.
Variable main_function : SrcFilePtr → FunctionPtr.

Abbreviation core := (CompilerCore ClassPtr SrcFilePtr VarPtr).
Abbreviation store := (functions FunctionPtr VarPtr).
Abbreviation tokens := (list (token FunctionPtr ClassPtr SrcFilePtr VarPtr TypePtr)).
Abbreviation prepare_one := (prepare_generate_function std_hash my_unique).
Abbreviation prepare_xall := (prepare_functions std_hash my_unique).
Abbreviation finish :=
  (on_finish (TypePtr:=TypePtr) std_hash my_unique does_need_codegen class_type
     main_function).
Abbreviation mains G := (main_function <$> get_main_files G).
Abbreviation classes_loop :=
  (class_loop (FunctionPtr:=FunctionPtr) (SrcFilePtr:=SrcFilePtr) (VarPtr:=VarPtr)
     (TypePtr:=TypePtr) does_need_codegen class_type).
Abbreviation classes_tokens :=
  (class_tokens (FunctionPtr:=FunctionPtr) (SrcFilePtr:=SrcFilePtr) (VarPtr:=VarPtr)
     (TypePtr:=TypePtr) does_need_codegen class_type).
Abbreviation unexpected := (unexpected_class does_need_codegen class_type).

(** **** Writes through a pointer *)

Lemma write_function_eq f d (σ : store) : write_function f d σ f = d.
Proof. unfold write_function. by rewrite decide_True. Qed.

Lemma write_function_ne f g d (σ : store) : g ≠ f → write_function f d σ g = σ g.
Proof. intros. unfold write_function. by rewrite decide_False. Qed.

(** **** [prepare_generate_function], once and again *)

Lemma prepare_without_vars (d d' : FunctionData VarPtr) :
  without_vars d' = without_vars (prepare_one d) →
  without_vars (prepare_one d') = without_vars (prepare_one d).
Proof.
  destruct d, d'. unfold without_vars, prepare_generate_function. simpl.
  intros [= -> -> -> -> -> -> -> -> -> -> -> -> ->].
  by destruct is_inline0, is_imported_from_static_lib0.
Qed.

Lemma prepare_should_gen mf (σ : store) f g :
  should_gen_function mf (write_function f (prepare_one (σ f)) σ) g
    = should_gen_function mf σ g.
Proof.
  unfold should_gen_function, write_function. by case_decide; subst.
Qed.

(** **** The first loop *)

Lemma prepare_functions_cons mf x xall (σ : store) :
  prepare_xall mf (x :: xall) σ =
    prepare_xall mf xall
      (if should_gen_function mf σ x
       then write_function x (prepare_one (σ x)) σ else σ).
Proof. done. Qed.

Lemma prepare_functions_should_gen mf xall (σ : store) g :
  should_gen_function mf (prepare_xall mf xall σ) g = should_gen_function mf σ g.
Proof.
  revert σ. induction xall as [|x xall IH]; intros σ; [done|].
  rewrite prepare_functions_cons, IH.
  destruct (should_gen_function mf σ x); [|done]. apply prepare_should_gen.
Qed.

Lemma prepare_functions_other mf xall (σ : store) f :
  ¬ (f ∈ xall ∧ should_gen_function mf σ f = true) →
  prepare_xall mf xall σ f = σ f.
Proof.
  revert σ. induction xall as [|x xall IH]; intros σ Hnot; [done|].
  rewrite prepare_functions_cons.
  destruct (should_gen_function mf σ x) eqn:Hx.
  - rewrite IH.
    + apply write_function_ne. intros ->. apply Hnot. split; [left|done].
    + rewrite prepare_should_gen. intros [? ?]. apply Hnot. split; [by right|done].
  - apply IH. intros [? ?]. apply Hnot. split; [by right|done].
Qed.

Lemma prepare_functions_names mf xall (σ : store) f :
  f ∈ xall → should_gen_function mf σ f = true →
  without_vars (prepare_xall mf xall σ f) = without_vars (prepare_one (σ f)).
Proof.
  revert σ. induction xall as [|x xall IH]; intros σ Hin Hgen.
  { by apply elem_of_nil in Hin. }
  rewrite prepare_functions_cons.
  destruct (decide (f ∈ xall)) as [Hxs|Hxs].
  - destruct (should_gen_function mf σ x) eqn:Hx; [|by apply IH].
    rewrite IH by (by rewrite ?prepare_should_gen).
    destruct (decide (f = x)) as [->|Hne].
    + rewrite write_function_eq. by apply prepare_without_vars.
    + by rewrite write_function_ne.
  - apply elem_of_cons in Hin as [->|?]; [|done].
    rewrite Hgen, prepare_functions_other by tauto.
    by rewrite write_function_eq.
Qed.

Lemma prepare_functions_once mf xall (σ : store) f :
  NoDup xall → f ∈ xall → should_gen_function mf σ f = true →
  prepare_xall mf xall σ f = prepare_one (σ f).
Proof.
  revert σ. induction xall as [|x xall IH]; intros σ Hnd Hin Hgen.
  { by apply elem_of_nil in Hin. }
  apply NoDup_cons in Hnd as [Hx Hnd].
  rewrite prepare_functions_cons.
  apply elem_of_cons in Hin as [->|Hin].
  - rewrite Hgen, prepare_functions_other by tauto.
    by rewrite write_function_eq.
  - assert (f ≠ x) as Hne by (by intros ->).
    destruct (should_gen_function mf σ x) eqn:Hgx; [|by apply IH].
    rewrite IH by (by rewrite ?prepare_should_gen).
    by rewrite write_function_ne.
Qed.

Lemma prepare_functions_generated mf xall (σ : store) g :
  generated mf (prepare_xall mf xall σ) g = generated mf σ g.
Proof.
  unfold generated. rewrite prepare_functions_should_gen.
  destruct (should_gen_function mf σ g) eqn:Hg; [|done]. simpl. f_equal.
  destruct (decide (g ∈ xall)).
  - exact (f_equal is_extern (prepare_functions_names mf xall σ g ltac:(done) Hg)).
  - by rewrite prepare_functions_other by tauto.
Qed.

Lemma prepare_functions_export mf xall (σ : store) g :
  kphp_lib_export (prepare_xall mf xall σ g) = kphp_lib_export (σ g).
Proof.
  destruct (decide (g ∈ xall ∧ should_gen_function mf σ g = true)) as [[? Hg]|?].
  - exact (f_equal kphp_lib_export (prepare_functions_names mf xall σ g ltac:(done) Hg)).
  - by rewrite prepare_functions_other.
Qed.

(** **** The second loop *)

Lemma function_loop_spec (G : core) mf (σ : store) xall
    (l : function_loop (ClassPtr:=ClassPtr) (SrcFilePtr:=SrcFilePtr) (TypePtr:=TypePtr)) :
  foldl (function_step G mf σ) l xall =
    {| all_functions :=
         all_functions l ++ filter (λ f, generated mf σ f = true) xall;
       exported_functions :=
         exported_functions l ++
         filter (λ f, generated mf σ f && kphp_lib_export (σ f)
                        && is_static_lib_mode (settings G) = true) xall;
       function_tokens :=
         function_tokens l ++
         (filter (λ f, generated mf σ f = true) xall ≫=
            λ f, [Async (FunctionH f); Async (FunctionCpp f)]) |}.
Proof.
  revert l. induction xall as [|x xall IH]; intros l.
  { destruct l. simpl. by rewrite !app_nil_r. }
  simpl foldl. rewrite IH, !filter_cons. unfold function_step, generated.
  destruct (should_gen_function mf σ x); simpl; [|done].
  destruct (is_extern (σ x)); simpl; [done|].
  destruct (kphp_lib_export (σ x)), (is_static_lib_mode (settings G)); simpl;
    by rewrite <- ?app_assoc.
Qed.

(** **** The loop over the classes *)

Lemma class_loop_stop cs (W : tokens) :
  Exists (λ c, unexpected c = true) cs → classes_loop cs W = Fatal.
Proof.
  revert W. induction cs as [|c cs IH]; intros W Hex.
  { by apply Exists_nil in Hex. }
  simpl. apply Exists_cons in Hex as [Hex|Hex].
  - unfold unexpected_class in Hex.
    destruct (does_need_codegen c); [|done]. simpl in *.
    by destruct (class_type c).
  - destruct (does_need_codegen c); simpl; [|by apply IH].
    destruct (class_type c); try done; by apply IH.
Qed.

Lemma class_loop_pass cs (W : tokens) :
  Forall (λ c, unexpected c = false) cs →
  classes_loop cs W = Ok (W ++ classes_tokens cs).
Proof.
  revert W. induction cs as [|c cs IH]; intros W Hall.
  { simpl. by rewrite app_nil_r. }
  apply Forall_cons in Hall as [Hc Hall]. simpl. unfold unexpected_class in Hc.
  unfold class_tokens. csimpl.
  destruct (does_need_codegen c); simpl in *.
  - destruct (class_type c); try done; rewrite IH by done;
      by rewrite <- app_assoc.
  - by rewrite IH.
Qed.

Lemma class_loop_cases cs (W : tokens) :
  (Exists (λ c, unexpected c = true) cs ∧ classes_loop cs W = Fatal) ∨
  (Forall (λ c, unexpected c = false) cs ∧
   classes_loop cs W = Ok (W ++ classes_tokens cs)).
Proof.
  destruct (decide (Exists (λ c, unexpected c = true) cs)) as [Hex|Hno].
  - left. split; [done|]. by apply class_loop_stop.
  - right. assert (Forall (λ c, unexpected c = false) cs) as Hall.
    { apply Forall_forall. intros c Hc.
      destruct (unexpected c) eqn:Hu; [|done].
      exfalso. apply Hno, Exists_exists. eauto. }
    split; [done|]. by apply class_loop_pass.
Qed.

Lemma elem_of_class_tokens cs (t : token FunctionPtr ClassPtr SrcFilePtr VarPtr TypePtr) :
  t ∈ classes_tokens cs ↔
  ∃ c, c ∈ cs ∧ does_need_codegen c = true ∧
       (class_type c = klass ∧ t = Async (ClassDeclaration c) ∨
        class_type c = interface ∧ t = Async (InterfaceDeclaration c)).
Proof.
  unfold class_tokens. rewrite list_elem_of_bind. split.
  - intros (c & Ht & Hc). exists c. split; [done|].
    destruct (does_need_codegen c); [|by apply elem_of_nil in Ht].
    destruct (class_type c); try (by apply elem_of_nil in Ht);
      apply list_elem_of_singleton in Ht; eauto.
  - intros (c & Hc & Hneed & [[Hty ->]|[Hty ->]]); exists c;
      rewrite Hneed, Hty; (split; [by apply list_elem_of_singleton|done]).
Qed.

(** **** The vector of variables *)

Lemma vars_loop {A B} (g : A → list B) xs vars :
  foldl (λ vars x, vars ++ g x) vars xs = vars ++ (xs ≫= g).
Proof.
  revert vars. induction xs as [|x xs IH]; intros vars; csimpl.
  - by rewrite app_nil_r.
  - by rewrite IH, <- app_assoc.
Qed.

(** **** What [on_finish] writes when it returns *)

Lemma on_finish_written (G : core) xall cg (σ : store) (W : tokens) σ' :
  finish G xall cg σ = Ok (W, σ') →
  σ' = prepare_xall (mains G) xall σ ∧
  Forall (λ c, unexpected c = false) (get_classes G) ∧
  (is_static_lib_mode (settings G) = false →
   is_server_mode (settings G) || is_cli_mode (settings G) = true) ∧
  ∃ vars main,
    vars = get_global_vars G ++ (xall ≫= λ f, static_var_ids (σ' f)) ∧
    (if is_static_lib_mode (settings G) then main = []
     else write_main G = Ok main) ∧
    W = (filter (λ f, generated (mains G) σ f = true) xall ≫=
           λ f, [Async (FunctionH f); Async (FunctionCpp f)])
        ++ classes_tokens (get_classes G)
        ++ ((λ main_file, Async (GlobalVarsReset main_file)) <$> get_main_files G)
        ++ (if enable_global_vars_memory_stats (settings G)
            then [Async (GlobalVarsMemoryStats (get_main_files G))] else [])
        ++ [Async (InitScriptsCpp (get_main_files G)
                     (filter (λ f, generated (mains G) σ f = true) xall))]
        ++ [Async (VarsCpp vars
                     (calc_count_of_parts (globals_split_count (settings G))
                        (Z.of_nat (length vars))))]
        ++ (if is_static_lib_mode (settings G) then
              ((λ f, Async (LibHeaderH f)) <$>
                 filter (λ f, generated (mains G) σ f && kphp_lib_export (σ f)
                                && is_static_lib_mode (settings G) = true) xall)
              ++ [Async (LibHeaderTxt
                           (filter (λ f, generated (mains G) σ f
                                           && kphp_lib_export (σ f)
                                           && is_static_lib_mode (settings G) = true)
                              xall));
                  Async StaticLibraryRunGlobalHeaderH]
            else [Async (TypeTagger (forkable_types cg) (waitable_types cg))])
        ++ [TlQueryHandlers]
        ++ write_lib_version G
        ++ main.
Proof.
  unfold on_finish. rewrite function_loop_spec, vars_loop. simpl.
  assert (Hgen : filter (λ f, generated (mains G)
                   (prepare_xall (mains G) xall σ) f = true) xall
                 = filter (λ f, generated (mains G) σ f = true) xall).
  { apply list_filter_iff. intros f. by rewrite prepare_functions_generated. }
  assert (Hexp : filter (λ f, generated (mains G) (prepare_xall (mains G) xall σ) f
                     && kphp_lib_export (prepare_xall (mains G) xall σ f)
                     && is_static_lib_mode (settings G) = true) xall
                 = filter (λ f, generated (mains G) σ f && kphp_lib_export (σ f)
                     && is_static_lib_mode (settings G) = true) xall).
  { apply list_filter_iff. intros f.
    by rewrite prepare_functions_generated, prepare_functions_export. }
  rewrite Hgen, Hexp.
  destruct (class_loop_cases (get_classes G)
              (filter (λ f, generated (mains G) σ f = true) xall ≫=
                 λ f, [Async (FunctionH f); Async (FunctionCpp f)]))
    as [[_ ->]|[Hall ->]]; [done|].
  unfold write_main.
  destruct (is_static_lib_mode (settings G)) eqn:Hstatic; simpl.
  - intros [= <- <-]. split_and!; try done.
    eexists _, []. split_and!; try done.
    destruct (enable_global_vars_memory_stats (settings G));
      by rewrite <- ?app_assoc, ?app_nil_r.
  - destruct (is_server_mode (settings G) || is_cli_mode (settings G)) eqn:Hmode;
      [|done].
    intros [= <- <-]. split_and!; try done.
    eexists _, _. split_and!; try done.
    destruct (enable_global_vars_memory_stats (settings G));
      by rewrite <- ?app_assoc.
Qed.


Lemma write_main_tokens (G : core) (main : tokens) :
  write_main G = Ok main →
  ∀ t, t ∈ main →
    t = OpenFile "main.cpp" ∨ t = CloseFile ∨ t = NL ∨ t = BEGIN ∨ t = END ∨
    t = SemicolonAndNL ∨ (∃ s, t = Text s) ∨ (∃ s, t = ExternInclude s).
Proof.
  unfold write_main. destruct (_ || _); [|done]. intros [= <-] t Ht.
  repeat (apply elem_of_cons in Ht as [->|Ht]; [eauto 10|]).
  by apply elem_of_nil in Ht.
Qed.

Lemma write_lib_version_tokens (G : core) (t : token FunctionPtr ClassPtr SrcFilePtr VarPtr TypePtr) :
  t ∈ write_lib_version G →
  t = OpenFile "_lib_version.h" ∨ t = CloseFile ∨ t = NL ∨ (∃ s, t = Text s).
Proof.
  unfold write_lib_version. intros Ht.
  repeat (apply elem_of_cons in Ht as [->|Ht]; [eauto 10|]).
  by apply elem_of_nil in Ht.
Qed.


Lemma on_finish_token (G : core) xall cg (σ : store) (W : tokens) σ' :
  finish G xall cg σ = Ok (W, σ') →
  ∀ t, t ∈ W ↔
    (∃ f, f ∈ xall ∧ generated (mains G) σ f = true ∧
          (t = Async (FunctionH f) ∨ t = Async (FunctionCpp f))) ∨
    t ∈ classes_tokens (get_classes G) ∨
    (∃ main_file, t = Async (GlobalVarsReset main_file) ∧
                  main_file ∈ get_main_files G) ∨
    (enable_global_vars_memory_stats (settings G) = true ∧
     t = Async (GlobalVarsMemoryStats (get_main_files G))) ∨
    t = Async (InitScriptsCpp (get_main_files G)
                 (filter (λ f, generated (mains G) σ f = true) xall)) ∨
    t = Async (VarsCpp (get_global_vars G ++ (xall ≫= λ f, static_var_ids (σ' f)))
                 (calc_count_of_parts (globals_split_count (settings G))
                    (Z.of_nat (length (get_global_vars G ++
                                       (xall ≫= λ f, static_var_ids (σ' f))))))) ∨
    (is_static_lib_mode (settings G) = true ∧
     ((∃ f, f ∈ xall ∧ generated (mains G) σ f = true ∧
            kphp_lib_export (σ f) = true ∧ t = Async (LibHeaderH f)) ∨
      t = Async (LibHeaderTxt
                   (filter (λ f, generated (mains G) σ f && kphp_lib_export (σ f)
                                   && is_static_lib_mode (settings G) = true)
                      xall)) ∨
      t = Async StaticLibraryRunGlobalHeaderH)) ∨
    (is_static_lib_mode (settings G) = false ∧
     t = Async (TypeTagger (forkable_types cg) (waitable_types cg))) ∨
    t = TlQueryHandlers ∨
    t ∈ write_lib_version G ∨
    (is_static_lib_mode (settings G) = false ∧
     ∃ main, write_main G = Ok main ∧ t ∈ main).
Proof.
  intros Hfin.
  destruct (on_finish_written G xall cg σ W σ' Hfin)
    as (Hσ & Hall & Hmode & vars & main & -> & Hmain & HW).
  intros t.
  rewrite HW, !elem_of_app, list_elem_of_bind, list_elem_of_fmap,
    !list_elem_of_singleton.
  assert (Hfiles :
    (∃ g, t ∈ [Async (FunctionH g); Async (FunctionCpp g)] ∧
          g ∈ filter (λ f, generated (mains G) σ f = true) xall) ↔
    (∃ f, f ∈ xall ∧ generated (mains G) σ f = true ∧
          (t = Async (FunctionH f) ∨ t = Async (FunctionCpp f)))).
  { split.
    - intros (g & Hg & [? ?]%list_elem_of_filter). exists g.
      rewrite elem_of_cons, list_elem_of_singleton in Hg. done.
    - intros (g & ? & ? & Hg). exists g.
      rewrite elem_of_cons, list_elem_of_singleton, list_elem_of_filter. done. }
  assert (Hstats :
    t ∈ (if enable_global_vars_memory_stats (settings G)
         then [Async (GlobalVarsMemoryStats (get_main_files G))] else []) ↔
    enable_global_vars_memory_stats (settings G) = true ∧
    t = Async (GlobalVarsMemoryStats (get_main_files G))).
  { destruct (enable_global_vars_memory_stats _).
    - rewrite list_elem_of_singleton. naive_solver.
    - rewrite elem_of_nil. naive_solver. }
  assert (Hmodes :
    t ∈ (if is_static_lib_mode (settings G) then
           ((λ f, Async (LibHeaderH f)) <$>
              filter (λ f, generated (mains G) σ f && kphp_lib_export (σ f)
                             && is_static_lib_mode (settings G) = true) xall)
           ++ [Async (LibHeaderTxt
                        (filter (λ f, generated (mains G) σ f
                                        && kphp_lib_export (σ f)
                                        && is_static_lib_mode (settings G) = true)
                           xall));
               Async StaticLibraryRunGlobalHeaderH]
         else [Async (TypeTagger (forkable_types cg) (waitable_types cg))]) ↔
    (is_static_lib_mode (settings G) = true ∧
     ((∃ f, f ∈ xall ∧ generated (mains G) σ f = true ∧
            kphp_lib_export (σ f) = true ∧ t = Async (LibHeaderH f)) ∨
      t = Async (LibHeaderTxt
                   (filter (λ f, generated (mains G) σ f && kphp_lib_export (σ f)
                                   && is_static_lib_mode (settings G) = true)
                      xall)) ∨
      t = Async StaticLibraryRunGlobalHeaderH)) ∨
    (is_static_lib_mode (settings G) = false ∧
     t = Async (TypeTagger (forkable_types cg) (waitable_types cg)))).
  { destruct (is_static_lib_mode (settings G)) eqn:Hstatic.
    - rewrite elem_of_app, list_elem_of_fmap, elem_of_cons, list_elem_of_singleton.
      assert (Hexp :
        (∃ y, t = Async (LibHeaderH y) ∧
              y ∈ filter (λ f, generated (mains G) σ f && kphp_lib_export (σ f)
                                 && true = true) xall) ↔
        (∃ f, f ∈ xall ∧ generated (mains G) σ f = true ∧
              kphp_lib_export (σ f) = true ∧ t = Async (LibHeaderH f))).
      { split.
        - intros (g & ? & [Hg ?]%list_elem_of_filter). exists g.
          rewrite !andb_true_iff in Hg. tauto.
        - intros (g & ? & Hg & He & ?). exists g.
          rewrite list_elem_of_filter, Hg, He. done. }
      rewrite Hexp. intuition congruence.
    - rewrite list_elem_of_singleton. intuition congruence. }
  assert (Hmains :
    t ∈ main ↔
    is_static_lib_mode (settings G) = false ∧
    ∃ main, write_main G = Ok main ∧ t ∈ main).
  { destruct (is_static_lib_mode (settings G)).
    - subst main. rewrite elem_of_nil. naive_solver.
    - split; [by eauto|]. intros (_ & main' & Hmain' & ?). congruence. }
  rewrite Hfiles, Hstats, Hmodes, Hmains. tauto.
Qed.

(** Take a token of [on_finish] apart. *)
Ltac token_cases :=
  repeat match goal with
  | H : _ ∨ _ |- _ => destruct H as [H|H]
  | H : ∃ _, _ |- _ => destruct H as [? H]
  | H : _ ∧ _ |- _ => destruct H as [? H]
  | H : _ ∈ class_tokens _ _ _ |- _ => apply elem_of_class_tokens in H
  | H : _ ∈ write_lib_version _ |- _ => apply write_lib_version_tokens in H
  | H : write_main ?G = Ok ?m, H' : _ ∈ ?m |- _ =>
      apply (write_main_tokens G m H) in H'
  end; simplify_eq.

(** When [on_finish] returns, a header and a source file have been asked for
    exactly for the functions of [xall] that should be generated and are not
    extern; every function of [xall] that should be generated has the file
    names of [prepare_generate_function] (and is exactly the prepared
    function when [xall] has it once); every other function is as it was. *)
Theorem on_finish_function_files (G : core) xall cg (σ : store) (W : tokens) σ' f :
  finish G xall cg σ = Ok (W, σ') →
  (Async (FunctionH f) ∈ W ↔ f ∈ xall ∧ generated (mains G) σ f = true) ∧
  (Async (FunctionCpp f) ∈ W ↔ f ∈ xall ∧ generated (mains G) σ f = true) ∧
  (f ∈ xall → should_gen_function (mains G) σ f = true →
     without_vars (σ' f) = without_vars (prepare_one (σ f))) ∧
  (NoDup xall → f ∈ xall → should_gen_function (mains G) σ f = true →
     σ' f = prepare_one (σ f)) ∧
  (¬ (f ∈ xall ∧ should_gen_function (mains G) σ f = true) → σ' f = σ f).
Proof.
  intros Hfin.
  pose proof (on_finish_token G xall cg σ W σ' Hfin) as HW.
  destruct (on_finish_written G xall cg σ W σ' Hfin) as (Hσ & _).
  split_and!.
  - rewrite HW. split.
    + intros Ht. token_cases; done.
    + intros [? ?]. left. eauto.
  - rewrite HW. split.
    + intros Ht. token_cases; done.
    + intros [? ?]. left. eauto.
  - intros. subst σ'. by apply prepare_functions_names.
  - intros. subst σ'. by apply prepare_functions_once.
  - intros. subst σ'. by apply prepare_functions_other.
Qed.

(** When [on_finish] returns, a declaration has been asked for exactly for
    the classes that need code: a class declaration for a class proper, an
    interface declaration for an interface. *)
Theorem on_finish_class_files (G : core) xall cg (σ : store) (W : tokens) σ' c :
  finish G xall cg σ = Ok (W, σ') →
  (Async (ClassDeclaration c) ∈ W ↔
     c ∈ get_classes G ∧ does_need_codegen c = true ∧ class_type c = klass) ∧
  (Async (InterfaceDeclaration c) ∈ W ↔
     c ∈ get_classes G ∧ does_need_codegen c = true ∧ class_type c = interface) ∧
  (c ∈ get_classes G → does_need_codegen c = true →
     class_type c = klass ∨ class_type c = interface).
Proof.
  intros Hfin.
  pose proof (on_finish_token G xall cg σ W σ' Hfin) as HW.
  destruct (on_finish_written G xall cg σ W σ' Hfin) as (_ & Hall & _).
  split_and!.
  - rewrite HW. split.
    + intros Ht. token_cases; done.
    + intros (? & ? & ?). right; left. apply elem_of_class_tokens. eauto 10.
  - rewrite HW. split.
    + intros Ht. token_cases; done.
    + intros (? & ? & ?). right; left. apply elem_of_class_tokens. eauto 10.
  - intros Hc Hneed. rewrite Forall_forall in Hall. specialize (Hall c Hc).
    unfold unexpected_class in Hall. rewrite Hneed in Hall.
    destruct (class_type c); auto; done.
Qed.

(** The two modes of [on_finish].  In static library mode no type tagger
    and no [main.cpp] are written, and a library header is asked for exactly
    for the generated functions that are exported; otherwise the type tagger
    is asked for once, with the forkable and waitable types collected by
    [execute], [main.cpp] is written, and nothing of the library is.  The
    library version file is written in both. *)
Theorem on_finish_modes (G : core) xall cg (σ : store) (W : tokens) σ' :
  finish G xall cg σ = Ok (W, σ') →
  (is_static_lib_mode (settings G) = true →
     (∀ fk wt, Async (TypeTagger fk wt) ∉ W) ∧
     OpenFile "main.cpp" ∉ W ∧
     (∀ f, Async (LibHeaderH f) ∈ W ↔
           f ∈ xall ∧ generated (mains G) σ f = true ∧
           kphp_lib_export (σ f) = true) ∧
     Async StaticLibraryRunGlobalHeaderH ∈ W) ∧
  (is_static_lib_mode (settings G) = false →
     (∀ fk wt, Async (TypeTagger fk wt) ∈ W ↔
               fk = forkable_types cg ∧ wt = waitable_types cg) ∧
     OpenFile "main.cpp" ∈ W ∧
     (∀ f, Async (LibHeaderH f) ∉ W) ∧
     (∀ fs, Async (LibHeaderTxt fs) ∉ W) ∧
     Async StaticLibraryRunGlobalHeaderH ∉ W) ∧
  OpenFile "_lib_version.h" ∈ W.
Proof.
  intros Hfin.
  pose proof (on_finish_token G xall cg σ W σ' Hfin) as HW.
  destruct (on_finish_written G xall cg σ W σ' Hfin) as (_ & _ & Hmode & _).
  split_and!.
  - intros Hstatic. split_and!.
    + intros fk wt Ht%HW. token_cases; congruence.
    + intros Ht%HW. token_cases; congruence.
    + intros f. rewrite HW. split.
      * intros Ht. token_cases; done.
      * intros (? & ? & ?). do 6 right. left. split; [done|]. left. eauto.
    + apply HW. do 6 right. left. split; [done|]. right. by right.
  - intros Hstatic. split_and!.
    + intros fk wt. rewrite HW. split.
      * intros Ht. token_cases; done.
      * intros [-> ->]. do 7 right. left. done.
    + apply HW. do 10 right. split; [done|].
      specialize (Hmode Hstatic). unfold write_main. rewrite Hmode.
      eexists. split; [done|]. by left.
    + intros f Ht%HW. token_cases; congruence.
    + intros fs Ht%HW. token_cases; congruence.
    + intros Ht%HW. token_cases; congruence.
  - apply HW. do 9 right. left. by left.
Qed.

(** When [on_finish] returns, the variables have been handed over once:
    the global variables of the compiler followed by the static variables
    of every function of [xall], generated or not, in the order of [xall],
    with the number of parts [calc_count_of_parts] gives for their number. *)
Theorem on_finish_vars (G : core) xall cg (σ : store) (W : tokens) σ' vars parts :
  finish G xall cg σ = Ok (W, σ') →
  Async (VarsCpp vars parts) ∈ W ↔
    vars = get_global_vars G ++ (xall ≫= λ f, static_var_ids (σ' f)) ∧
    parts = calc_count_of_parts (globals_split_count (settings G))
              (Z.of_nat (length vars)).
Proof.
  intros Hfin.
  pose proof (on_finish_token G xall cg σ W σ' Hfin) as HW.
  rewrite HW. split.
  - intros Ht. token_cases; done.
  - intros [-> ->]. do 5 right. by left.
Qed.

End FinishFacts.

(** *** Examples of [on_finish] *)

Lemma sample_on_finish_returns static : ∃ r, sample_on_finish static = Ok r.
Proof. destruct static; eexists; vm_compute; reflexivity. Defined.

(** An example: the files of the method [A$$f] in a program of five
    functions. *)
Lemma on_finish_function_files_witness :
  ∃ W σ', sample_on_finish false = Ok (W, σ') ∧
    (Async (FunctionH 1%nat) ∈ W ↔
       1%nat ∈ sample_xall ∧
       generated (sample_main_function <$> get_main_files (sample_core false))
         sample_functions 1%nat = true) ∧
    (Async (FunctionCpp 1%nat) ∈ W ↔
       1%nat ∈ sample_xall ∧
       generated (sample_main_function <$> get_main_files (sample_core false))
         sample_functions 1%nat = true) ∧
    (1%nat ∈ sample_xall →
     should_gen_function (sample_main_function <$> get_main_files (sample_core false))
       sample_functions 1%nat = true →
     without_vars (σ' 1%nat) =
       without_vars (prepare_generate_function Key.sample_hash remove_dups
                       (sample_functions 1%nat))) ∧
    (NoDup sample_xall → 1%nat ∈ sample_xall →
     should_gen_function (sample_main_function <$> get_main_files (sample_core false))
       sample_functions 1%nat = true →
     σ' 1%nat = prepare_generate_function Key.sample_hash remove_dups
                  (sample_functions 1%nat)) ∧
    (¬ (1%nat ∈ sample_xall ∧
        should_gen_function (sample_main_function <$> get_main_files (sample_core false))
          sample_functions 1%nat = true) →
     σ' 1%nat = sample_functions 1%nat).
Proof.
  destruct (sample_on_finish_returns false) as [[W σ'] Hfin].
  exists W, σ'. split; [exact Hfin|].
  exact (on_finish_function_files Key.sample_hash remove_dups sample_needs_codegen
           sample_class_type sample_main_function (sample_core false) sample_xall
           sample_cg sample_functions W σ' 1%nat Hfin).
Defined.

(** An example: the declaration of class 1. *)
Lemma on_finish_class_files_witness :
  ∃ W σ', sample_on_finish false = Ok (W, σ') ∧
    (Async (ClassDeclaration 1%nat) ∈ W ↔
       1%nat ∈ get_classes (sample_core false) ∧
       sample_needs_codegen 1%nat = true ∧ sample_class_type 1%nat = klass) ∧
    (Async (InterfaceDeclaration 1%nat) ∈ W ↔
       1%nat ∈ get_classes (sample_core false) ∧
       sample_needs_codegen 1%nat = true ∧ sample_class_type 1%nat = interface) ∧
    (1%nat ∈ get_classes (sample_core false) → sample_needs_codegen 1%nat = true →
     sample_class_type 1%nat = klass ∨ sample_class_type 1%nat = interface).
Proof.
  destruct (sample_on_finish_returns false) as [[W σ'] Hfin].
  exists W, σ'. split; [exact Hfin|].
  exact (on_finish_class_files Key.sample_hash remove_dups sample_needs_codegen
           sample_class_type sample_main_function (sample_core false) sample_xall
           sample_cg sample_functions W σ' 1%nat Hfin).
Defined.

(** An example: the same program in static library mode. *)
Lemma on_finish_modes_witness :
  ∃ W σ', sample_on_finish true = Ok (W, σ') ∧
    (is_static_lib_mode (settings (sample_core true)) = true →
       (∀ fk wt, Async (TypeTagger fk wt) ∉ W) ∧
       OpenFile "main.cpp" ∉ W ∧
       (∀ f, Async (LibHeaderH f) ∈ W ↔
             f ∈ sample_xall ∧
             generated (sample_main_function <$> get_main_files (sample_core true))
               sample_functions f = true ∧
             kphp_lib_export (sample_functions f) = true) ∧
       Async StaticLibraryRunGlobalHeaderH ∈ W) ∧
    (is_static_lib_mode (settings (sample_core true)) = false →
       (∀ fk wt, Async (TypeTagger fk wt) ∈ W ↔
                 fk = forkable_types sample_cg ∧ wt = waitable_types sample_cg) ∧
       OpenFile "main.cpp" ∈ W ∧
       (∀ f, Async (LibHeaderH f) ∉ W) ∧
       (∀ fs, Async (LibHeaderTxt fs) ∉ W) ∧
       Async StaticLibraryRunGlobalHeaderH ∉ W) ∧
    OpenFile "_lib_version.h" ∈ W.
Proof.
  destruct (sample_on_finish_returns true) as [[W σ'] Hfin].
  exists W, σ'. split; [exact Hfin|].
  exact (on_finish_modes Key.sample_hash remove_dups sample_needs_codegen
           sample_class_type sample_main_function (sample_core true) sample_xall
           sample_cg sample_functions W σ' Hfin).
Defined.

(** An example: the variables of the program. *)
Lemma on_finish_vars_witness :
  ∃ W σ', sample_on_finish false = Ok (W, σ') ∧
    (Async (VarsCpp [100; 101; 7; 8]%nat 3) ∈ W ↔
       [100; 101; 7; 8]%nat =
         get_global_vars (sample_core false) ++
         (sample_xall ≫= λ f, static_var_ids (σ' f)) ∧
       3 = calc_count_of_parts
             (globals_split_count (settings (sample_core false)))
             (Z.of_nat (length [100; 101; 7; 8]%nat))).
Proof.
  destruct (sample_on_finish_returns false) as [[W σ'] Hfin].
  exists W, σ'. split; [exact Hfin|].
  exact (on_finish_vars Key.sample_hash remove_dups sample_needs_codegen
           sample_class_type sample_main_function (sample_core false) sample_xall
           sample_cg sample_functions W σ' [100; 101; 7; 8]%nat 3 Hfin).
Defined.

(** What the sample program writes outside the static library mode. *)
Lemma on_finish_example :
  fst <$> (match sample_on_finish false with Ok r => Some r | _ => None end) =
  Some [ Async (FunctionH 1%nat); Async (FunctionCpp 1%nat);
         Async (FunctionH 3%nat); Async (FunctionCpp 3%nat);
         Async (FunctionH 4%nat); Async (FunctionCpp 4%nat);
         Async (ClassDeclaration 1%nat); Async (InterfaceDeclaration 2%nat);
         Async (GlobalVarsReset 0%nat);
         Async (InitScriptsCpp [0%nat] [1; 3; 4]%nat);
         Async (VarsCpp [100; 101; 7; 8]%nat 3);
         Async (TypeTagger [20%nat] [10%nat]);
         TlQueryHandlers;
         OpenFile "_lib_version.h";
         Text "// Runtime sha256: "; Text "00"; NL;
         Text "// CXX: "; Text "g++"; NL;
         Text "// CXXFLAGS: "; Text "-O2"; NL;
         Text "// DEBUG: "; Text "0"; NL;
         CloseFile;
         OpenFile "main.cpp";
         ExternInclude "server/php-engine.h"; NL;
         Text "int main(int argc, char *argv[]) "; BEGIN;
         Text "return run_main(argc, argv, php_mode::";
         Text "server"; Text ")"; SemicolonAndNL;
         END;
         CloseFile ].
Proof. vm_compute. reflexivity. Qed.

(** A trait that needs code stops the compiler. *)
Lemma on_finish_trait_example :
  on_finish (TypePtr:=nat) Key.sample_hash remove_dups (λ _, true) sample_class_type
    sample_main_function (sample_core false) sample_xall sample_cg
    sample_functions = Fatal.
Proof. vm_compute. reflexivity. Qed.

(** *** Examples *)

(** An example: two functions executed in either order. *)
Lemma execute_all_order_witness :
  waitable_types (execute_all sample_call sample_type sample_read_at
      [[1; 2; 0]; [3; 4]]%nat {| waitable_types := [7%nat]; forkable_types := [] |})
    ≡ₚ waitable_types (execute_all sample_call sample_type sample_read_at
      [[3; 4]; [1; 2; 0]]%nat {| waitable_types := [7%nat]; forkable_types := [] |}) ∧
  forkable_types (execute_all sample_call sample_type sample_read_at
      [[1; 2; 0]; [3; 4]]%nat {| waitable_types := [7%nat]; forkable_types := [] |})
    ≡ₚ forkable_types (execute_all sample_call sample_type sample_read_at
      [[3; 4]; [1; 2; 0]]%nat {| waitable_types := [7%nat]; forkable_types := [] |}) ∧
  [7%nat] `prefix_of` waitable_types (execute_all sample_call sample_type sample_read_at
      [[1; 2; 0]; [3; 4]]%nat {| waitable_types := [7%nat]; forkable_types := [] |}) ∧
  [] `prefix_of` forkable_types (execute_all sample_call sample_type sample_read_at
      [[1; 2; 0]; [3; 4]]%nat {| waitable_types := [7%nat]; forkable_types := [] |}).
Proof.
  apply (execute_all_order sample_call sample_type sample_read_at
           [[1; 2; 0]; [3; 4]]%nat [[3; 4]; [1; 2; 0]]%nat
           {| waitable_types := [7%nat]; forkable_types := [] |}).
  apply perm_swap.
Defined.

(** The vectors of that example. *)
Lemma execute_all_example :
  waitable_types
    (execute_all sample_call sample_type sample_read_at [[1; 2; 0]; [3; 4]]%nat
       {| waitable_types := [7%nat]; forkable_types := [] |})
    = [7; 10; 21; 30]%nat ∧
  forkable_types
    (execute_all sample_call sample_type sample_read_at [[1; 2; 0]; [3; 4]]%nat
       {| waitable_types := [7%nat]; forkable_types := [] |})
    = [10; 21; 20; 40]%nat.
Proof. done. Qed.

Lemma subdirs_hundred : length subdirs = 100%nat ∧ NoDup subdirs.
Proof. split; [done|]. apply (bool_decide_unpack _). by vm_compute. Qed.

(** An example: 7 variables in parts of 3. *)
Lemma calc_count_of_parts_bounds_witness :
  1 ≤ calc_count_of_parts 3 7 ∧
  (calc_count_of_parts 3 7 - 1) * 3 ≤ 7 < calc_count_of_parts 3 7 * 3 ∧
  (7 mod 3 = 0 → 7 = (calc_count_of_parts 3 7 - 1) * 3).
Proof. apply (calc_count_of_parts_bounds 3 7); by vm_compute. Defined.

(** An example: the subdirectory of a file name under the sample hash. *)
Lemma get_subdir_bucket_witness :
  get_subdir Key.sample_hash "index.php" ∈ subdirs ∧
  ∃ b, 0 ≤ b < 100 ∧ get_subdir Key.sample_hash "index.php" = "o_" +:+ std_to_string b.
Proof. apply (get_subdir_bucket Key.sample_hash "index.php"). by vm_compute. Defined.

(** An example: two functions with one header. *)
Lemma header_names_distinct_witness :
  name (sample_function "A$$f")
    = name (sample_function_of "A$$f" func_other body_empty true false []).
Proof.
  apply (header_names_distinct Key.sample_hash id
           (sample_function "A$$f")
           (sample_function_of "A$$f" func_other body_empty true false []));
    by vm_compute.
Defined.

(** Two names that differ in [$] against [@] share their files. *)
Lemma header_names_collide :
  header_name (prepare_generate_function Key.sample_hash id (sample_function "A$$f"))
    = "A@@f.h"%string ∧
  header_name (prepare_generate_function Key.sample_hash id (sample_function "A@@f"))
    = "A@@f.h"%string.
Proof. by vm_compute. Qed.

End CodeGenFacts.
